(** * CUtlArray: a shallow embedding of [utils/common/utlarray.h]

    [CUtlArray<T, A>] is a growable, index-addressed array over a storage
    policy [A].  The embedding follows the header function by function:

    - [int] is modelled by [Z].  Signed overflow is undefined behaviour in
      C++, so the arithmetic is unbounded: the development covers the
      executions in which no [int] computation overflows.
    - A storage slot holds the bytes of one [T] ([bits]) together with the
      ghost flag [live] that says whether a constructed object currently
      lives in the slot.
    - Methods that mutate the array or can fail an [assert] are written in a
      state-and-error monad [M] over a [world]: the array plus a log of the
      element-lifecycle and growth events the method has performed.
    - The storage policy ([utlmemory.h], [utlblockmemory.h]) is not part of
      the header; it is modelled from the specification, see [CUtlMemory]. *)

From stdpp Require Import base list.
From Stdlib Require Import ZArith Lia.

Local Open Scope Z_scope.

(** ** The element type

    What the container asks of [T]: a default constructor, [operator==]
    (used by [Find]), and two byte patterns that only ever sit in slots
    holding no object: [T_raw] for storage that was never written and
    [T_fill] for the [0xDD] pattern of the debug [memset]. *)
Class ElemType (T : Type) := {
  T_default : T;
  T_eq : T → T → bool;
  T_raw : T;
  T_fill : T
}.

(** ** Events recorded in the log *)
Inductive event :=
  | EvGrow (n : Z)               (* m_Memory.Grow( n ) *)
  | EvConstruct (i : Z)          (* Construct( &Element(i) ) *)
  | EvCopyConstruct (i : Z)      (* CopyConstruct( &Element(i), src ) *)
  | EvDestruct (i : Z)           (* Destruct( &Element(i) ) *)
  | EvAssign (i : Z)             (* Element(i) = value *)
  | EvMove (dst src n : Z)       (* memmove / memcpy of n elements *)
  | EvFill (i n : Z)             (* debug memset of n elements *)
  | EvSwap (i j : Z)             (* swap( Element(i), Element(j) ) *)
  | EvDelete (i : Z)             (* delete Element(i) *)
  | EvQsort (n : Z).             (* qsort over n elements *)

(** Number of element-sized steps an event stands for. *)
Definition event_cost (e : event) : Z :=
  match e with
  | EvMove _ _ n => n
  | EvFill _ n => n
  | EvQsort n => n
  | _ => 1
  end.

Definition cost (l : list event) : Z := foldr (λ e c, event_cost e + c) 0 l.

Definition is_grow (e : event) : bool :=
  match e with EvGrow _ => true | _ => false end.

(** Number of times the storage policy's [Grow] was invoked. *)
Definition grow_events (l : list event) : nat := length (filter (λ e, is_grow e = true) l).

(** ** The storage policies *)
Inductive policy :=
  | Contiguous                   (* CUtlMemory<T> *)
  | Fixed (bound : Z)            (* CUtlMemoryFixed<T, MAX_SIZE> *)
  | BlockSegmented.              (* CUtlBlockMemory<T, int> *)

Definition is_fixed (p : policy) : bool :=
  match p with Fixed _ => true | _ => false end.

(** ** Method bodies

    A method body runs on a world [W] and either completes with a value or
    stops at a failed [assert] (or at a fatal report of the storage policy),
    in which case the world it had reached is kept. *)
Inductive outcome (W A : Type) :=
  | Done (x : A) (w : W)
  | Fatal (w : W).
Global Arguments Done {W A} x w.
Global Arguments Fatal {W A} w.

Definition Cmd (W A : Type) : Type := W → outcome W A.

Definition ret {W A} (x : A) : Cmd W A := λ w, Done x w.
Definition bind {W A B} (m : Cmd W A) (f : A → Cmd W B) : Cmd W B :=
  λ w, match m w with
       | Done x w' => f x w'
       | Fatal w' => Fatal w'
       end.
Definition fatal {W A} : Cmd W A := λ w, Fatal w.

Declare Scope cmd_scope.
Delimit Scope cmd_scope with cmd.
Notation "'let!' x ':=' m 'in' k" := (bind m (λ x, k))
  (at level 10, x name, m at level 100, k at level 200) : cmd_scope.
Notation "m1 '>>' m2" := (bind m1 (λ _, m2))
  (at level 100, m2 at level 200, right associativity) : cmd_scope.
Local Open Scope cmd_scope.

Section Array.
Context {T : Type} `{ElemType T}.

Record slot := Slot { bits : T; live : bool }.

Definition raw_slot : slot := Slot T_raw false.
Definition vacate (s : slot) : slot := Slot (bits s) false.

(** Modelled from the spec: the storage policy classes [CUtlMemory],
    [CUtlMemoryFixed] and [CUtlBlockMemory] of [utlmemory.h] and
    [utlblockmemory.h], which the header includes but which are not among
    the sources.  A policy owns the slots, answers its capacity, has a
    configured growth increment, and is one of the variants of the
    specification; the class template parameter [A] is reified as the field
    [m_Policy].  (The fixed-with-overflow variant is, seen from the array,
    the contiguous one constructed with [initSize = MAX_SIZE].) *)
Record CUtlMemory := Memory {
  m_Slots : list slot;
  m_nGrowSize : Z;
  m_Policy : policy
}.

Definition MemNumAllocated (m : CUtlMemory) : Z := Z.of_nat (length (m_Slots m)).

(** [m_Memory[i]].  The header reaches slots through the policy's
    [operator[]]; an index outside the allocation is undefined behaviour
    there.  The model makes it total: such a read sees a raw slot and such a
    write is dropped. *)
Definition mem_get (m : CUtlMemory) (i : Z) : slot :=
  if decide (0 ≤ i) then default raw_slot (m_Slots m !! Z.to_nat i) else raw_slot.

Definition with_slots (m : CUtlMemory) (l : list slot) : CUtlMemory :=
  Memory l (m_nGrowSize m) (m_Policy m).

Definition mem_set (m : CUtlMemory) (i : Z) (s : slot) : CUtlMemory :=
  if decide (0 ≤ i) then with_slots m (<[Z.to_nat i := s]> (m_Slots m)) else m.

Definition in_range (lo n j : Z) : bool := bool_decide (lo ≤ j < lo + n).

(** [memmove( &m[dst], &m[src], n * sizeof(T) )] seen as a relocation of
    [n] objects: every destination slot receives the slot contents that were
    [dst - src] positions away before the call, and a source slot that is not
    also a destination keeps its stale bytes but no longer holds an object. *)
Definition mem_move (m : CUtlMemory) (dst src n : Z) : CUtlMemory :=
  with_slots m
    (imap (λ k s, let j := Z.of_nat k in
                  if in_range dst n j then mem_get m (src + (j - dst))
                  else if in_range src n j then vacate s
                  else s) (m_Slots m)).

(** [memset( &m[i], 0xDD, n * sizeof(T) )]. *)
Definition mem_fill (m : CUtlMemory) (i n : Z) : CUtlMemory :=
  with_slots m
    (imap (λ k s, if in_range i n (Z.of_nat k) then Slot T_fill false else s) (m_Slots m)).

(** Overwrites the bytes of slots [0 .. length l) with [l], leaving the
    [live] flags alone: what [qsort] leaves behind once it has rearranged
    the bytes of the element range. *)
Definition mem_store_bits (m : CUtlMemory) (l : list T) : CUtlMemory :=
  with_slots m
    (imap (λ k s, match l !! k with Some v => Slot v (live s) | None => s end) (m_Slots m)).

Definition round_up (n g : Z) : Z := ((n + g - 1) `div` g) * g.

(** Modelled from the spec: the growth algorithm.  With a growth increment
    of 0 the new capacity is the larger of the capacity asked for and the
    doubled current capacity (minimum 1); otherwise it is the current
    capacity plus the smallest multiple of the increment that accommodates
    the [n] additional slots. *)
Definition new_capacity (g cap n : Z) : Z :=
  if decide (g = 0) then Z.max (cap + n) (Z.max (2 * cap) 1)
  else cap + round_up n (Z.abs g).

Definition extend_to (m : CUtlMemory) (cap : Z) : CUtlMemory :=
  with_slots m (m_Slots m ++ replicate (Z.to_nat (cap - MemNumAllocated m)) raw_slot).

(** Modelled from the spec: [A::Grow( n )].  The growable policies move to
    [new_capacity]; existing slots keep their logical index.  The fixed
    policy refuses, fatally, to grow past its bound. *)
Definition MemGrow (m : CUtlMemory) (n : Z) : option CUtlMemory :=
  match m_Policy m with
  | Fixed b =>
      if decide (MemNumAllocated m + n ≤ b) then Some (extend_to m b) else None
  | _ => Some (extend_to m (new_capacity (m_nGrowSize m) (MemNumAllocated m) n))
  end.

(** Modelled from the spec: [A::EnsureCapacity( num )] makes the capacity at
    least [num] and leaves the slots in use alone. *)
Definition MemEnsureCapacity (m : CUtlMemory) (num : Z) : option CUtlMemory :=
  if decide (num ≤ MemNumAllocated m) then Some m
  else match m_Policy m with
       | Fixed b => if decide (num ≤ b) then Some (extend_to m b) else None
       | _ => Some (extend_to m num)
       end.

(** Capacity of a policy that holds no storage of its own: nothing for the
    growable policies, the compile-time bound for the fixed one. *)
Definition zero_capacity (m : CUtlMemory) : Z :=
  match m_Policy m with
  | Fixed _ => MemNumAllocated m
  | _ => 0
  end.

(** Modelled from the spec: [A::Purge()] releases the storage entirely; the
    inline region of the fixed policy cannot be given back. *)
Definition MemPurge (m : CUtlMemory) : CUtlMemory :=
  match m_Policy m with
  | Fixed _ => m
  | _ => with_slots m []
  end.

(** Modelled from the spec: [A::Purge( keep )] releases the capacity beyond
    [keep] slots, best effort: the block-segmented policy only gives back
    whole pages (a page being the growth increment), the fixed policy
    nothing. *)
Definition MemPurgeKeep (m : CUtlMemory) (keep : Z) : CUtlMemory :=
  match m_Policy m with
  | Fixed _ => m
  | Contiguous => with_slots m (take (Z.to_nat keep) (m_Slots m))
  | BlockSegmented =>
      if decide (m_nGrowSize m = 0) then with_slots m (take (Z.to_nat keep) (m_Slots m))
      else with_slots m (take (Z.to_nat (round_up keep (Z.abs (m_nGrowSize m)))) (m_Slots m))
  end.

(** Modelled from the spec: [A::Base()] is a single base address, which the
    block-segmented policy does not have. *)
Definition MemBase (m : CUtlMemory) : bool :=
  match m_Policy m with
  | BlockSegmented => false
  | _ => true
  end.

Definition MemSetGrowSize (m : CUtlMemory) (size : Z) : CUtlMemory :=
  Memory (m_Slots m) size (m_Policy m).

(** Modelled from the spec: the policy constructor [A( growSize, initSize )]. *)
Definition MemNew (p : policy) (growSize initSize : Z) : CUtlMemory :=
  Memory (replicate (Z.to_nat (match p with Fixed b => b | _ => initSize end)) raw_slot)
         growSize p.

(** ** The array

    [m_pElements] is a copy of [Base()] kept for the debugger
    ([ResetDbgInfo]); it carries no information of its own and is left out. *)
Record CUtlArray := Array {
  m_Memory : CUtlMemory;
  m_Size : Z
}.

Record world := World {
  arr : CUtlArray;
  log : list event
}.

Definition M : Type → Type := Cmd world.

(** ** The methods of [CUtlArray] *)

(** [debug] tells a debug build ([assert] active, [_DEBUG] defined) from an
    optimized one, in which both are compiled out. *)
Variable debug : bool.

(** The C library's [qsort], applied to the bytes of the element range. *)
Variable qsort : (T → T → Z) → list T → list T.

Definition get : M CUtlArray := λ w, Done (arr w) w.
Definition set_memory (m : CUtlMemory) : M unit :=
  λ w, Done tt (World (Array m (m_Size (arr w))) (log w)).
Definition set_size (n : Z) : M unit :=
  λ w, Done tt (World (Array (m_Memory (arr w)) n) (log w)).
Definition emit (e : event) : M unit :=
  λ w, Done tt (World (arr w) (log w ++ [e])).

Definition assert (c : bool) : M unit :=
  if debug && negb c then fatal else ret tt.

Fixpoint for_up (n : nat) (i : Z) (body : Z → M unit) : M unit :=
  match n with
  | O => ret tt
  | S n' => body i >> for_up n' (i + 1) body
  end.

Fixpoint for_down (n : nat) (i : Z) (body : Z → M unit) : M unit :=
  match n with
  | O => ret tt
  | S n' => body (i - 1) >> for_down n' (i - 1) body
  end.

(** *** Element lifecycle (in-place construction and destruction) *)

Definition Construct (i : Z) : M unit :=
  let! a := get in
  set_memory (mem_set (m_Memory a) i (Slot T_default true)) >> emit (EvConstruct i).

Definition CopyConstruct (i : Z) (src : T) : M unit :=
  let! a := get in
  set_memory (mem_set (m_Memory a) i (Slot src true)) >> emit (EvCopyConstruct i).

Definition Destruct (i : Z) : M unit :=
  let! a := get in
  set_memory (mem_set (m_Memory a) i (vacate (mem_get (m_Memory a) i))) >>
  emit (EvDestruct i).

(** [Element( i ) = v], [T]'s assignment on the object in slot [i]. *)
Definition AssignElement (i : Z) (v : T) : M unit :=
  let! a := get in
  set_memory (mem_set (m_Memory a) i (Slot v (live (mem_get (m_Memory a) i)))) >>
  emit (EvAssign i).

Definition memmove (dst src n : Z) : M unit :=
  let! a := get in
  set_memory (mem_move (m_Memory a) dst src n) >> emit (EvMove dst src n).

Definition memset_dd (i n : Z) : M unit :=
  let! a := get in
  set_memory (mem_fill (m_Memory a) i n) >> emit (EvFill i n).

(** *** Element access and count *)

Definition Element (a : CUtlArray) (i : Z) : T := bits (mem_get (m_Memory a) i).

Definition Count (a : CUtlArray) : Z := m_Size a.
Definition Size (a : CUtlArray) : Z := m_Size a.

Definition IsValidIndex (a : CUtlArray) (i : Z) : bool :=
  bool_decide (i >= 0) && bool_decide (i < m_Size a).

Definition InvalidIndex : Z := -1.

Definition NumAllocated (a : CUtlArray) : Z := MemNumAllocated (m_Memory a).

Definition Base (a : CUtlArray) : bool := MemBase (m_Memory a).

Definition Head : M T :=
  let! a := get in
  assert (bool_decide (m_Size a > 0)) >> ret (Element a 0).

Definition Tail : M T :=
  let! a := get in
  assert (bool_decide (m_Size a > 0)) >> ret (Element a (m_Size a - 1)).

(** *** Growth *)

Definition Grow (n : Z) : M unit :=
  let! a := get in
  emit (EvGrow n) >>
  match MemGrow (m_Memory a) n with
  | Some m => set_memory m
  | None => fatal
  end.

Definition GrowVector (num : Z) : M unit :=
  let! a := get in
  (if decide (m_Size a + num > NumAllocated a)
   then Grow (m_Size a + num - NumAllocated a)
   else ret tt) >>
  set_size (m_Size a + num).

Definition EnsureCapacity (num : Z) : M unit :=
  let! a := get in
  match MemEnsureCapacity (m_Memory a) num with
  | Some m => set_memory m
  | None => fatal
  end.

(** *** Shifting *)

Definition ShiftElementsRight (elem num : Z) : M unit :=
  let! a := get in
  assert (IsValidIndex a elem || bool_decide (m_Size a = 0) || bool_decide (num = 0)) >>
  let numToMove := m_Size a - elem - num in
  if bool_decide (numToMove > 0) && bool_decide (num > 0)
  then memmove (elem + num) elem numToMove
  else ret tt.

Definition ShiftElementsLeft (elem num : Z) : M unit :=
  let! a := get in
  assert (IsValidIndex a elem || bool_decide (m_Size a = 0) || bool_decide (num = 0)) >>
  let numToMove := m_Size a - elem - num in
  if bool_decide (numToMove > 0) && bool_decide (num > 0)
  then memmove elem (elem + num) numToMove >>
       (if debug then memset_dd (m_Size a - num) num else ret tt)
  else ret tt.

(** *** Insertion

    The header's aliasing assertions compare the address of [src] with the
    array's storage.  Here [src] is passed by value, so it never lies inside
    the array and those assertions hold; they are not repeated. *)

Definition InsertBefore (elem : Z) : M Z :=
  let! a := get in
  assert (bool_decide (elem = Count a) || IsValidIndex a elem) >>
  GrowVector 1 >>
  ShiftElementsRight elem 1 >>
  Construct elem >>
  ret elem.

Definition InsertBefore_src (elem : Z) (src : T) : M Z :=
  let! a := get in
  assert (bool_decide (elem = Count a) || IsValidIndex a elem) >>
  GrowVector 1 >>
  ShiftElementsRight elem 1 >>
  CopyConstruct elem src >>
  ret elem.

Definition AddToHead : M Z := InsertBefore 0.
Definition AddToTail : M Z := let! a := get in InsertBefore (m_Size a).
Definition InsertAfter (elem : Z) : M Z := InsertBefore (elem + 1).

Definition AddToHead_src (src : T) : M Z := InsertBefore_src 0 src.
Definition AddToTail_src (src : T) : M Z := let! a := get in InsertBefore_src (m_Size a) src.
Definition InsertAfter_src (elem : Z) (src : T) : M Z := InsertBefore_src (elem + 1) src.

(** [pToCopy[i]]; past the end of the caller's array the read is undefined
    and sees raw bytes here. *)
Definition src_at (p : list T) (i : Z) : T := default T_raw (p !! Z.to_nat i).

(** [pToInsert] is [None] for the null pointer. *)
Definition InsertMultipleBefore (elem num : Z) (pToInsert : option (list T)) : M Z :=
  if decide (num = 0) then ret elem
  else
    let! a := get in
    assert (bool_decide (elem = Count a) || IsValidIndex a elem) >>
    GrowVector num >>
    ShiftElementsRight elem num >>
    for_up (Z.to_nat num) 0 (λ i, Construct (elem + i)) >>
    match pToInsert with
    | Some p => for_up (Z.to_nat num) 0 (λ i, AssignElement (elem + i) (src_at p i))
    | None => ret tt
    end >>
    ret elem.

Definition AddMultipleToHead (num : Z) : M Z := InsertMultipleBefore 0 num None.
Definition AddMultipleToTail (num : Z) (pToCopy : option (list T)) : M Z :=
  let! a := get in InsertMultipleBefore (m_Size a) num pToCopy.
Definition InsertMultipleAfter (elem num : Z) : M Z := InsertMultipleBefore (elem + 1) num None.

(** *** Removal *)

Definition RemoveAll : M unit :=
  let! a := get in
  for_down (Z.to_nat (m_Size a)) (m_Size a) Destruct >>
  set_size 0.

Definition FastRemove (elem : Z) : M unit :=
  let! a := get in
  assert (IsValidIndex a elem) >>
  Destruct elem >>
  if decide (m_Size a > 0)
  then memmove elem (m_Size a - 1) 1 >> set_size (m_Size a - 1)
  else ret tt.

Definition Remove (elem : Z) : M unit :=
  Destruct elem >>
  ShiftElementsLeft elem 1 >>
  let! a := get in
  set_size (m_Size a - 1).

Fixpoint Find_from (a : CUtlArray) (src : T) (n : nat) (i : Z) : Z :=
  match n with
  | O => -1
  | S n' => if T_eq (Element a i) src then i else Find_from a src n' (i + 1)
  end.

Definition Find (a : CUtlArray) (src : T) : Z :=
  Find_from a src (Z.to_nat (Count a)) 0.

Definition HasElement (a : CUtlArray) (src : T) : bool :=
  bool_decide (Find a src >= 0).

Definition FindAndRemove (src : T) : M bool :=
  let! a := get in
  let elem := Find a src in
  if decide (elem ≠ -1)
  then Remove elem >> ret true
  else ret false.

Definition RemoveMultiple (elem num : Z) : M unit :=
  let! a := get in
  assert (bool_decide (elem >= 0)) >>
  assert (bool_decide (elem + num ≤ Count a)) >>
  for_down (Z.to_nat num) (elem + num) Destruct >>
  ShiftElementsLeft elem num >>
  set_size (m_Size a - num).

(** *** Resetting, copying, swapping *)

Definition SetCount (count : Z) : M unit :=
  RemoveAll >>
  let! _ := AddMultipleToTail count None in ret tt.

Definition SetSize (size : Z) : M unit := SetCount size.

Definition CopyArray (pArray : list T) (size : Z) : M unit :=
  SetSize size >>
  for_up (Z.to_nat size) 0 (λ i, AssignElement i (src_at pArray i)).

(** [operator=]; [other] is another array, read but not written. *)
Definition assign_from (other : CUtlArray) : M unit :=
  let nCount := Count other in
  SetSize nCount >>
  for_up (Z.to_nat nCount) 0 (λ i, AssignElement i (Element other i)).

(** [Swap( vec )] returns what [vec] holds afterwards. *)
Definition Swap (vec : CUtlArray) : M CUtlArray :=
  let! a := get in
  set_memory (m_Memory vec) >>
  set_size (m_Size vec) >>
  ret (Array (m_Memory a) (m_Size a)).

(** [assert( &src != this )] holds: [src] is a separate array. *)
Definition AddVectorToTail (src : CUtlArray) : M Z :=
  let! a := get in
  let base := Count a in
  let! _ := AddMultipleToTail (Count src) None in
  for_up (Z.to_nat (Count src)) 0 (λ i, AssignElement (base + i) (Element src i)) >>
  ret base.

Definition EnsureCount (num : Z) : M unit :=
  let! a := get in
  if decide (Count a < num)
  then let! _ := AddMultipleToTail (num - Count a) None in ret tt
  else ret tt.

(** *** Memory deallocation *)

Definition Purge : M unit :=
  RemoveAll >>
  let! a := get in
  set_memory (MemPurge (m_Memory a)).

(** [delete Element( i )] releases what the element points to; the slot
    itself is not touched. *)
Definition PurgeAndDeleteElements : M unit :=
  let! a := get in
  for_up (Z.to_nat (m_Size a)) 0 (λ i, emit (EvDelete i)) >>
  Purge.

Definition Compact : M unit :=
  let! a := get in
  set_memory (MemPurgeKeep (m_Memory a) (m_Size a)).

Definition SetGrowSize (size : Z) : M unit :=
  let! a := get in
  set_memory (MemSetGrowSize (m_Memory a) size).

(** *** Sorting *)

(** [swap( Element( i ), Element( j ) )]: the two objects exchange values. *)
Definition swap_elements (i j : Z) : M unit :=
  let! a := get in
  let m := m_Memory a in
  set_memory (mem_set (mem_set m i (Slot (bits (mem_get m j)) (live (mem_get m i))))
                      j (Slot (bits (mem_get m i)) (live (mem_get m j)))) >>
  emit (EvSwap i j).

(** The logical sequence of values, indices [0 .. m_Size). *)
Definition contents (a : CUtlArray) : list T :=
  bits <$> take (Z.to_nat (m_Size a)) (m_Slots (m_Memory a)).

Definition bubble_step (pfnCompare : T → T → Z) (j : Z) : M unit :=
  let! a := get in
  if decide (pfnCompare (Element a (j - 1)) (Element a j) < 0)
  then swap_elements (j - 1) j
  else ret tt.

Definition Sort (pfnCompare : T → T → Z) : M unit :=
  let! a := get in
  if decide (Count a ≤ 1) then ret tt
  else if Base a
  then
    set_memory (mem_store_bits (m_Memory a) (qsort pfnCompare (contents a))) >>
    emit (EvQsort (Count a))
  else
    assert false >>
    for_down (Z.to_nat (m_Size a)) (m_Size a)
      (λ i, for_up (Z.to_nat i) 1 (bubble_step pfnCompare)).

(** *** Constructors *)

Definition CUtlArray_new (p : policy) (growSize initSize : Z) : CUtlArray :=
  Array (MemNew p growSize initSize) 0.

Definition run {A} (m : M A) (a : CUtlArray) : outcome world A := m (World a []).

(** ** The invariant and the contracts *)

(** [0 ≤ size ≤ capacity], and a constructed object lives in slot [i]
    exactly when [i < size]. *)
Definition wf (a : CUtlArray) : Prop :=
  0 ≤ m_Size a ≤ NumAllocated a ∧
  ∀ i, 0 ≤ i < NumAllocated a → live (mem_get (m_Memory a) i) = bool_decide (i < m_Size a).

(** A decidable form of the invariant. *)
Definition wfb (a : CUtlArray) : bool :=
  bool_decide (0 ≤ m_Size a ≤ NumAllocated a) &&
  bool_decide (live <$> m_Slots (m_Memory a) =
               replicate (Z.to_nat (m_Size a)) true ++
               replicate (Z.to_nat (NumAllocated a - m_Size a)) false).

(** The storage can be brought to [n] slots: always for the growable
    policies, up to the bound for the fixed one. *)
Definition can_hold (a : CUtlArray) (n : Z) : Prop :=
  match m_Policy (m_Memory a) with
  | Fixed b => n ≤ Z.max b (NumAllocated a)
  | _ => True
  end.

(** What a call hands back: the returned value, or for [Swap] the array now
    held by the other operand. *)
Inductive retval :=
  | RUnit
  | RInt (z : Z)
  | RBool (b : bool)
  | RElem (v : T)
  | RArray (vec : CUtlArray).

Definition returning {A} (f : A → retval) (c : M A) : M retval :=
  let! x := c in ret (f x).

(** The public operations of the class. *)
Inductive operation :=
  | OpAssign (other : CUtlArray)
  | OpElement (i : Z)
  | OpSetElement (i : Z) (v : T)
  | OpHead
  | OpTail
  | OpBase
  | OpCount
  | OpSize
  | OpIsValidIndex (i : Z)
  | OpInvalidIndex
  | OpAddToHead
  | OpAddToTail
  | OpInsertBefore (elem : Z)
  | OpInsertAfter (elem : Z)
  | OpAddToHead_src (src : T)
  | OpAddToTail_src (src : T)
  | OpInsertBefore_src (elem : Z) (src : T)
  | OpInsertAfter_src (elem : Z) (src : T)
  | OpAddMultipleToHead (num : Z)
  | OpAddMultipleToTail (num : Z) (pToCopy : option (list T))
  | OpInsertMultipleBefore (elem num : Z) (pToCopy : option (list T))
  | OpInsertMultipleAfter (elem num : Z)
  | OpSetSize (size : Z)
  | OpSetCount (count : Z)
  | OpCopyArray (pArray : list T) (size : Z)
  | OpSwap (vec : CUtlArray)
  | OpAddVectorToTail (src : CUtlArray)
  | OpFind (src : T)
  | OpHasElement (src : T)
  | OpEnsureCapacity (num : Z)
  | OpEnsureCount (num : Z)
  | OpFastRemove (elem : Z)
  | OpRemove (elem : Z)
  | OpFindAndRemove (src : T)
  | OpRemoveMultiple (elem num : Z)
  | OpRemoveAll
  | OpPurge
  | OpPurgeAndDeleteElements
  | OpCompact
  | OpSetGrowSize (size : Z)
  | OpNumAllocated
  | OpSort (pfnCompare : T → T → Z).

Definition const_method (f : CUtlArray → retval) : M retval :=
  let! a := get in ret (f a).

Definition exec (o : operation) : M retval :=
  match o with
  | OpAssign other => returning (λ _, RUnit) (assign_from other)
  | OpElement i => const_method (λ a, RElem (Element a i))
  | OpSetElement i v => returning (λ _, RUnit) (AssignElement i v)
  | OpHead => returning RElem Head
  | OpTail => returning RElem Tail
  | OpBase => const_method (λ a, RBool (Base a))
  | OpCount => const_method (λ a, RInt (Count a))
  | OpSize => const_method (λ a, RInt (Size a))
  | OpIsValidIndex i => const_method (λ a, RBool (IsValidIndex a i))
  | OpInvalidIndex => ret (RInt InvalidIndex)
  | OpAddToHead => returning RInt AddToHead
  | OpAddToTail => returning RInt AddToTail
  | OpInsertBefore elem => returning RInt (InsertBefore elem)
  | OpInsertAfter elem => returning RInt (InsertAfter elem)
  | OpAddToHead_src src => returning RInt (AddToHead_src src)
  | OpAddToTail_src src => returning RInt (AddToTail_src src)
  | OpInsertBefore_src elem src => returning RInt (InsertBefore_src elem src)
  | OpInsertAfter_src elem src => returning RInt (InsertAfter_src elem src)
  | OpAddMultipleToHead num => returning RInt (AddMultipleToHead num)
  | OpAddMultipleToTail num p => returning RInt (AddMultipleToTail num p)
  | OpInsertMultipleBefore elem num p => returning RInt (InsertMultipleBefore elem num p)
  | OpInsertMultipleAfter elem num => returning RInt (InsertMultipleAfter elem num)
  | OpSetSize size => returning (λ _, RUnit) (SetSize size)
  | OpSetCount count => returning (λ _, RUnit) (SetCount count)
  | OpCopyArray p size => returning (λ _, RUnit) (CopyArray p size)
  | OpSwap vec => returning RArray (Swap vec)
  | OpAddVectorToTail src => returning RInt (AddVectorToTail src)
  | OpFind src => const_method (λ a, RInt (Find a src))
  | OpHasElement src => const_method (λ a, RBool (HasElement a src))
  | OpEnsureCapacity num => returning (λ _, RUnit) (EnsureCapacity num)
  | OpEnsureCount num => returning (λ _, RUnit) (EnsureCount num)
  | OpFastRemove elem => returning (λ _, RUnit) (FastRemove elem)
  | OpRemove elem => returning (λ _, RUnit) (Remove elem)
  | OpFindAndRemove src => returning RBool (FindAndRemove src)
  | OpRemoveMultiple elem num => returning (λ _, RUnit) (RemoveMultiple elem num)
  | OpRemoveAll => returning (λ _, RUnit) RemoveAll
  | OpPurge => returning (λ _, RUnit) Purge
  | OpPurgeAndDeleteElements => returning (λ _, RUnit) PurgeAndDeleteElements
  | OpCompact => returning (λ _, RUnit) Compact
  | OpSetGrowSize size => returning (λ _, RUnit) (SetGrowSize size)
  | OpNumAllocated => const_method (λ a, RInt (NumAllocated a))
  | OpSort pfnCompare => returning (λ _, RUnit) (Sort pfnCompare)
  end.

(** The precondition each operation documents for its arguments: a valid
    index where one is asked for, an insertion point in [0 .. size], a
    non-negative count, a range inside the array, well-formed operands. *)
Definition requires (o : operation) (a : CUtlArray) : Prop :=
  match o with
  | OpAssign other => wf other
  | OpElement i | OpSetElement i _ => 0 ≤ i < m_Size a
  | OpHead | OpTail => 0 < m_Size a
  | OpInsertBefore elem | OpInsertBefore_src elem _ => 0 ≤ elem ≤ m_Size a
  | OpInsertAfter elem | OpInsertAfter_src elem _ => 0 ≤ elem + 1 ≤ m_Size a
  | OpAddMultipleToHead num | OpAddMultipleToTail num _ => 0 ≤ num
  | OpInsertMultipleBefore elem num _ => 0 ≤ elem ≤ m_Size a ∧ 0 ≤ num
  | OpInsertMultipleAfter elem num => 0 ≤ elem + 1 ≤ m_Size a ∧ 0 ≤ num
  | OpSetSize n | OpSetCount n | OpCopyArray _ n => 0 ≤ n
  | OpSwap vec | OpAddVectorToTail vec => wf vec
  | OpFastRemove elem | OpRemove elem => 0 ≤ elem < m_Size a
  | OpRemoveMultiple elem num => 0 ≤ elem ∧ 0 ≤ num ∧ elem + num ≤ m_Size a
  | _ => True
  end.

(** The inserting operations. *)
Definition is_insert (o : operation) : bool :=
  match o with
  | OpAddToHead | OpAddToTail | OpInsertBefore _ | OpInsertAfter _
  | OpAddToHead_src _ | OpAddToTail_src _ | OpInsertBefore_src _ _ | OpInsertAfter_src _ _
  | OpAddMultipleToHead _ | OpAddMultipleToTail _ _
  | OpInsertMultipleBefore _ _ _ | OpInsertMultipleAfter _ _ => true
  | _ => false
  end.

(** Runs the calls of [os] one after the other. *)
Fixpoint exec_all (os : list operation) : M unit :=
  match os with
  | [] => ret tt
  | o :: os' => exec o >> exec_all os'
  end.

(** Number of elements an inserting call adds. *)
Definition added (o : operation) : Z :=
  match o with
  | OpAddMultipleToHead num | OpAddMultipleToTail num _
  | OpInsertMultipleBefore _ num _ | OpInsertMultipleAfter _ num => num
  | _ => 1
  end.

(** [os] is a sequence of inserting calls, each within its contract, none of
    which takes the element count past [n]. *)
Fixpoint budget (n : Z) (os : list operation) (w : world) : Prop :=
  match os with
  | [] => True
  | o :: os' =>
      is_insert o = true ∧ requires o (arr w) ∧ m_Size (arr w) + added o ≤ n ∧
      ∀ r w', exec o w = Done r w' → budget n os' w'
  end.

(** ** Pure counterparts of the loops and of the growth step *)

(** [update_at k u m] rewrites slot [k] of [m] by [u]. *)
Definition update_at (k : Z) (u : slot → slot) (m : CUtlMemory) : CUtlMemory :=
  mem_set m k (u (mem_get m k)).

Fixpoint iter_up (f : Z → CUtlMemory → CUtlMemory) (n : nat) (i : Z) (m : CUtlMemory) : CUtlMemory :=
  match n with
  | O => m
  | S n' => iter_up f n' (i + 1) (f i m)
  end.

Fixpoint iter_down (f : Z → CUtlMemory → CUtlMemory) (n : nat) (i : Z) (m : CUtlMemory) : CUtlMemory :=
  match n with
  | O => m
  | S n' => iter_down f n' (i - 1) (f (i - 1) m)
  end.

Fixpoint events_up (e : Z → event) (n : nat) (i : Z) : list event :=
  match n with
  | O => []
  | S n' => e i :: events_up e n' (i + 1)
  end.

Fixpoint events_down (e : Z → event) (n : nat) (i : Z) : list event :=
  match n with
  | O => []
  | S n' => e (i - 1) :: events_down e n' (i - 1)
  end.

(** The storage after [GrowVector( num )] on size [s], if the policy agrees. *)
Definition grown (m : CUtlMemory) (s num : Z) : option CUtlMemory :=
  if decide (s + num > MemNumAllocated m)
  then MemGrow m (s + num - MemNumAllocated m)
  else Some m.

Definition grow_log (m : CUtlMemory) (s num : Z) : list event :=
  if decide (s + num > MemNumAllocated m)
  then [EvGrow (s + num - MemNumAllocated m)]
  else [].

(** The storage after [ShiftElementsRight( elem, num )] on size [s]. *)
Definition shifted_right (m : CUtlMemory) (s elem num : Z) : CUtlMemory :=
  if bool_decide (s - elem - num > 0) && bool_decide (num > 0)
  then mem_move m (elem + num) elem (s - elem - num)
  else m.

Definition shift_right_log (s elem num : Z) : list event :=
  if bool_decide (s - elem - num > 0) && bool_decide (num > 0)
  then [EvMove (elem + num) elem (s - elem - num)]
  else [].

(** The storage after [ShiftElementsLeft( elem, num )] on size [s]. *)
Definition shifted_left (m : CUtlMemory) (s elem num : Z) : CUtlMemory :=
  if bool_decide (s - elem - num > 0) && bool_decide (num > 0)
  then (if debug
        then mem_fill (mem_move m elem (elem + num) (s - elem - num)) (s - num) num
        else mem_move m elem (elem + num) (s - elem - num))
  else m.

Definition shift_left_log (s elem num : Z) : list event :=
  if bool_decide (s - elem - num > 0) && bool_decide (num > 0)
  then EvMove elem (elem + num) (s - elem - num) ::
       (if debug then [EvFill (s - num) num] else [])
  else [].

(** The array a completed call leaves behind. *)
Definition final {A} (o : outcome world A) : option CUtlArray :=
  match o with
  | Done _ w => Some (arr w)
  | Fatal _ => None
  end.

(** Same policy, growth increment and capacity. *)
Definition same_shape m m' : Prop :=
  m_Policy m' = m_Policy m ∧ m_nGrowSize m' = m_nGrowSize m ∧
  MemNumAllocated m' = MemNumAllocated m.

(** [body] is a step that rewrites the storage and logs one event. *)
Definition pure_step (body : Z → M unit) (f : Z → CUtlMemory → CUtlMemory) (e : Z → event) : Prop :=
  ∀ k m sz l, body k (World (Array m sz) l) = Done tt (World (Array (f k m) sz) (l ++ [e k])).

(** The storage after the two loops of [InsertMultipleBefore]: [num]
    default constructions from slot [elem] on, then the assignments from
    [pToInsert] when it is not null. *)
Definition constructed (m : CUtlMemory) (elem num : Z) : CUtlMemory :=
  iter_up (λ i, update_at (elem + i) (λ _, Slot T_default true)) (Z.to_nat num) 0 m.

Definition assigned (m : CUtlMemory) (elem num : Z) (v : Z → T) : CUtlMemory :=
  iter_up (λ i, update_at (elem + i) (λ s, Slot (v i) (live s))) (Z.to_nat num) 0 m.

Definition inserted (m : CUtlMemory) (sz elem num : Z) (pToInsert : option (list T)) : CUtlMemory :=
  let m' := constructed (shifted_right m (sz + num) elem num) elem num in
  match pToInsert with
  | Some p => assigned m' elem num (src_at p)
  | None => m'
  end.

Definition insert_log (sz elem num : Z) (pToInsert : option (list T)) : list event :=
  shift_right_log (sz + num) elem num ++
  events_up (λ i, EvConstruct (elem + i)) (Z.to_nat num) 0 ++
  match pToInsert with
  | Some p => events_up (λ i, EvAssign (elem + i)) (Z.to_nat num) 0
  | None => []
  end.

(** The storage after the destructor loop of [RemoveAll] / [RemoveMultiple]. *)
Definition destructed (m : CUtlMemory) (hi num : Z) : CUtlMemory :=
  iter_down (λ i, update_at i vacate) (Z.to_nat num) hi m.

(** The world at a stop caused by the fixed policy refusing to grow: the
    last thing that happened is a call [Grow( n )] that would take the
    capacity past the bound, and the array, whose size has not been raised
    yet, still satisfies the invariant. *)
Definition refused (w : world) : Prop :=
  wf (arr w) ∧
  ∃ b n, m_Policy (m_Memory (arr w)) = Fixed b ∧
         last (log w) = Some (EvGrow n) ∧
         b < NumAllocated (arr w) + n.

(** [c], started on a well-formed array satisfying [P], either completes on
    a well-formed array over the same policy, or stops because the fixed
    policy refused to grow. *)
Definition safe_on {A} (P : CUtlArray → Prop) (c : M A) : Prop :=
  ∀ a l, wf a → P a →
    match c (World a l) with
    | Done _ w' => wf (arr w') ∧ m_Policy (m_Memory (arr w')) = m_Policy (m_Memory a)
    | Fatal w' => refused w'
    end.



(** What [InsertMultipleBefore] puts into the new slots. *)
Definition filling (num : Z) (pToInsert : option (list T)) : list T :=
  match pToInsert with
  | Some p => p
  | None => replicate (Z.to_nat num) T_default
  end.

(** ** Facts about the storage model *)

Implicit Types (m : CUtlMemory) (a : CUtlArray) (w : world) (i j : Z) (s : slot).

Lemma mem_get_outside m j : j < 0 ∨ MemNumAllocated m ≤ j → mem_get m j = raw_slot.
Proof.
  unfold mem_get, MemNumAllocated. intros Hj. case_decide; [|done].
  rewrite lookup_ge_None_2; [done|lia].
Qed.

Lemma mem_get_lookup m j s :
  0 ≤ j → m_Slots m !! Z.to_nat j = Some s → mem_get m j = s.
Proof. unfold mem_get. intros ? ->. by case_decide. Qed.

Lemma mem_lookup_get m j :
  0 ≤ j < MemNumAllocated m → m_Slots m !! Z.to_nat j = Some (mem_get m j).
Proof.
  unfold mem_get, MemNumAllocated. intros Hj. case_decide; [|lia].
  destruct (lookup_lt_is_Some_2 (m_Slots m) (Z.to_nat j)) as [s Hs]; [lia|].
  by rewrite Hs.
Qed.

Lemma cap_with_slots m l : MemNumAllocated (with_slots m l) = Z.of_nat (length l).
Proof. done. Qed.

Lemma cap_set m i s : MemNumAllocated (mem_set m i s) = MemNumAllocated m.
Proof.
  unfold mem_set. case_decide; [|done].
  by rewrite cap_with_slots, length_insert.
Qed.

Lemma cap_move m dst src n : MemNumAllocated (mem_move m dst src n) = MemNumAllocated m.
Proof. unfold mem_move. by rewrite cap_with_slots, length_imap. Qed.

Lemma cap_fill m i n : MemNumAllocated (mem_fill m i n) = MemNumAllocated m.
Proof. unfold mem_fill. by rewrite cap_with_slots, length_imap. Qed.

Lemma cap_store_bits m l : MemNumAllocated (mem_store_bits m l) = MemNumAllocated m.
Proof. unfold mem_store_bits. by rewrite cap_with_slots, length_imap. Qed.

Lemma cap_extend m c : MemNumAllocated (extend_to m c) = Z.max (MemNumAllocated m) c.
Proof.
  unfold extend_to. rewrite cap_with_slots, length_app, length_replicate.
  unfold MemNumAllocated. lia.
Qed.

Lemma cap_nonneg m : 0 ≤ MemNumAllocated m.
Proof. unfold MemNumAllocated. lia. Qed.

Lemma mem_get_set_eq m i s : 0 ≤ i < MemNumAllocated m → mem_get (mem_set m i s) i = s.
Proof.
  intros Hi. apply mem_get_lookup; [lia|].
  unfold mem_set. case_decide; [|lia]. simpl.
  apply list_lookup_insert_eq. unfold MemNumAllocated in Hi. lia.
Qed.

Lemma mem_get_set_ne m i j s : j ≠ i → mem_get (mem_set m i s) j = mem_get m j.
Proof.
  intros Hne. unfold mem_set. case_decide; [|done].
  unfold mem_get. case_decide; [|done]. simpl.
  rewrite list_lookup_insert_ne; [done|lia].
Qed.

Lemma mem_get_move m dst src n j :
  0 ≤ j < MemNumAllocated m →
  mem_get (mem_move m dst src n) j =
    if in_range dst n j then mem_get m (src + (j - dst))
    else if in_range src n j then vacate (mem_get m j)
    else mem_get m j.
Proof.
  intros Hj. apply mem_get_lookup; [lia|].
  unfold mem_move. simpl. rewrite list_lookup_imap, (mem_lookup_get m j Hj). simpl.
  by rewrite Z2Nat.id by lia.
Qed.

Lemma mem_get_fill m i n j :
  0 ≤ j < MemNumAllocated m →
  mem_get (mem_fill m i n) j = if in_range i n j then Slot T_fill false else mem_get m j.
Proof.
  intros Hj. apply mem_get_lookup; [lia|].
  unfold mem_fill. simpl. rewrite list_lookup_imap, (mem_lookup_get m j Hj). simpl.
  by rewrite Z2Nat.id by lia.
Qed.

Lemma mem_get_store_bits m l j :
  0 ≤ j < MemNumAllocated m →
  mem_get (mem_store_bits m l) j =
    match l !! Z.to_nat j with
    | Some v => Slot v (live (mem_get m j))
    | None => mem_get m j
    end.
Proof.
  intros Hj. apply mem_get_lookup; [lia|].
  unfold mem_store_bits. simpl. by rewrite list_lookup_imap, (mem_lookup_get m j Hj).
Qed.

Lemma mem_get_extend m c j : mem_get (extend_to m c) j = mem_get m j.
Proof.
  unfold mem_get, extend_to. case_decide; [|done]. simpl.
  destruct (decide (Z.to_nat j < length (m_Slots m))%nat) as [Hlt|Hge].
  - by rewrite lookup_app_l.
  - rewrite lookup_app_r by lia. rewrite (lookup_ge_None_2 (m_Slots m)) by lia.
    destruct (replicate _ _ !! _) as [s|] eqn:Hs; [|done].
    by apply lookup_replicate in Hs as [-> _].
Qed.

Lemma mem_ext m m' :
  m_Policy m = m_Policy m' → m_nGrowSize m = m_nGrowSize m' →
  MemNumAllocated m = MemNumAllocated m' →
  (∀ j, 0 ≤ j < MemNumAllocated m → mem_get m j = mem_get m' j) →
  m = m'.
Proof.
  destruct m as [l g p], m' as [l' g' p']. simpl. intros -> -> Hc Hget. f_equal.
  unfold MemNumAllocated in *. simpl in *.
  apply list_eq_same_length with (length l); [lia|lia|].
  intros k x y Hk Hx Hy.
  specialize (Hget (Z.of_nat k) ltac:(lia)). unfold mem_get in Hget. simpl in Hget.
  case_decide; [|lia]. rewrite Nat2Z.id, Hx, Hy in Hget. done.
Qed.

(** ** Running the method bodies *)

Lemma run_bind {A B} (c : M A) (f : A → M B) w :
  (let! x := c in f x) w = match c w with Done x w' => f x w' | Fatal w' => Fatal w' end.
Proof. done. Qed.

Lemma assert_true c w : c = true → assert c w = Done tt w.
Proof. intros ->. unfold assert. by rewrite andb_false_r. Qed.

Lemma IsValidIndex_true a i : IsValidIndex a i = true ↔ 0 ≤ i < m_Size a.
Proof.
  unfold IsValidIndex. rewrite andb_true_iff, !bool_decide_eq_true. lia.
Qed.

Ltac exec :=
  cbv [bind get ret set_memory set_size emit fatal returning const_method
       Construct CopyConstruct Destruct AssignElement memmove memset_dd
       Count Size NumAllocated arr log m_Memory m_Size].

(** Closes an equation between two reads of the same slot. *)
Ltac same_index :=
  solve [lia | f_equal; lia | do 2 f_equal; lia | do 3 f_equal; lia | do 4 f_equal; lia].

Ltac passes := rewrite assert_true by
  (rewrite ?orb_true_iff, ?IsValidIndex_true, ?bool_decide_eq_true; simpl; lia).

Lemma for_up_run body f e :
  pure_step body f e →
  ∀ n i m sz l,
    for_up n i body (World (Array m sz) l) =
      Done tt (World (Array (iter_up f n i m) sz) (l ++ events_up e n i)).
Proof.
  intros Hstep. induction n as [|n IH]; intros i m sz l; simpl.
  - by rewrite app_nil_r.
  - unfold bind. rewrite Hstep, IH. by rewrite <- app_assoc.
Qed.

Lemma for_down_run body f e :
  pure_step body f e →
  ∀ n i m sz l,
    for_down n i body (World (Array m sz) l) =
      Done tt (World (Array (iter_down f n i m) sz) (l ++ events_down e n i)).
Proof.
  intros Hstep. induction n as [|n IH]; intros i m sz l; simpl.
  - by rewrite app_nil_r.
  - unfold bind. rewrite Hstep, IH. by rewrite <- app_assoc.
Qed.

Lemma Construct_step base :
  pure_step (λ i, Construct (base + i))
            (λ i, update_at (base + i) (λ _, Slot T_default true))
            (λ i, EvConstruct (base + i)).
Proof. by intros k m sz l. Qed.

Lemma Destruct_step : pure_step Destruct (λ i, update_at i vacate) EvDestruct.
Proof. by intros k m sz l. Qed.

Lemma Assign_step base (v : Z → T) :
  pure_step (λ i, AssignElement (base + i) (v i))
            (λ i, update_at (base + i) (λ s, Slot (v i) (live s)))
            (λ i, EvAssign (base + i)).
Proof. by intros k m sz l. Qed.

Lemma Delete_step : pure_step (λ i, emit (EvDelete i)) (λ _ m, m) EvDelete.
Proof. by intros k m sz l. Qed.

Lemma GrowVector_run m sz l num :
  GrowVector num (World (Array m sz) l) =
    match grown m sz num with
    | Some m' => Done tt (World (Array m' (sz + num)) (l ++ grow_log m sz num))
    | None => Fatal (World (Array m sz) (l ++ grow_log m sz num))
    end.
Proof.
  unfold GrowVector, Grow, grown, grow_log. exec.
  case_decide; [|by rewrite app_nil_r].
  by destruct (MemGrow _ _).
Qed.

Lemma ShiftElementsRight_run m sz l elem num :
  0 ≤ elem < sz ∨ sz = 0 ∨ num = 0 →
  ShiftElementsRight elem num (World (Array m sz) l) =
    Done tt (World (Array (shifted_right m sz elem num) sz) (l ++ shift_right_log sz elem num)).
Proof.
  intros Hok. unfold ShiftElementsRight, shifted_right, shift_right_log. exec.
  passes. destruct (_ && _); [done|by rewrite app_nil_r].
Qed.

Lemma ShiftElementsLeft_run m sz l elem num :
  0 ≤ elem < sz ∨ sz = 0 ∨ num = 0 →
  ShiftElementsLeft elem num (World (Array m sz) l) =
    Done tt (World (Array (shifted_left m sz elem num) sz) (l ++ shift_left_log sz elem num)).
Proof.
  intros Hok. unfold ShiftElementsLeft, shifted_left, shift_left_log. exec.
  passes. destruct (_ && _); [|by rewrite app_nil_r].
  destruct debug; [|done]. by rewrite <- app_assoc.
Qed.

Lemma RemoveAll_run m sz l :
  RemoveAll (World (Array m sz) l) =
    Done tt (World (Array (iter_down (λ i, update_at i vacate) (Z.to_nat sz) sz m) 0)
                   (l ++ events_down EvDestruct (Z.to_nat sz) sz)).
Proof.
  unfold RemoveAll. exec. by rewrite (for_down_run _ _ _ Destruct_step).
Qed.

Lemma FastRemove_run m sz l elem :
  0 ≤ elem < sz →
  FastRemove elem (World (Array m sz) l) =
    Done tt (World (Array (mem_move (update_at elem vacate m) elem (sz - 1) 1) (sz - 1))
                   (l ++ [EvDestruct elem; EvMove elem (sz - 1) 1])).
Proof.
  intros Hi. unfold FastRemove. exec. passes.
  case_decide; [|lia]. by rewrite <- app_assoc.
Qed.

Lemma Remove_run m sz l elem :
  0 ≤ elem < sz ∨ sz = 0 →
  Remove elem (World (Array m sz) l) =
    Done tt (World (Array (shifted_left (update_at elem vacate m) sz elem 1) (sz - 1))
                   (l ++ EvDestruct elem :: shift_left_log sz elem 1)).
Proof.
  intros Hi. unfold Remove. exec.
  rewrite ShiftElementsLeft_run by lia. by rewrite <- app_assoc.
Qed.

(** ** Pointwise description of the storage transformations *)

Lemma same_shape_refl m : same_shape m m.
Proof. done. Qed.

Lemma same_shape_trans m1 m2 m3 : same_shape m1 m2 → same_shape m2 m3 → same_shape m1 m3.
Proof. unfold same_shape. intros (-> & -> & ->) (-> & -> & ->). done. Qed.

Lemma shape_set m i s : same_shape m (mem_set m i s).
Proof.
  split_and!; [| |apply cap_set]; unfold mem_set; by case_decide.
Qed.

Lemma shape_update_at m k u : same_shape m (update_at k u m).
Proof. apply shape_set. Qed.

Lemma shape_move m dst src n : same_shape m (mem_move m dst src n).
Proof. split_and!; [done|done|apply cap_move]. Qed.

Lemma shape_fill m i n : same_shape m (mem_fill m i n).
Proof. split_and!; [done|done|apply cap_fill]. Qed.

Lemma shape_store_bits m l : same_shape m (mem_store_bits m l).
Proof. split_and!; [done|done|apply cap_store_bits]. Qed.

Lemma shape_iter_up f :
  (∀ k m, same_shape m (f k m)) → ∀ n i m, same_shape m (iter_up f n i m).
Proof.
  intros Hf. induction n as [|n IH]; intros i m; simpl; [done|].
  eapply same_shape_trans; [apply Hf|apply IH].
Qed.

Lemma shape_iter_down f :
  (∀ k m, same_shape m (f k m)) → ∀ n i m, same_shape m (iter_down f n i m).
Proof.
  intros Hf. induction n as [|n IH]; intros i m; simpl; [done|].
  eapply same_shape_trans; [apply Hf|apply IH].
Qed.

Lemma get_update_at m k u j :
  0 ≤ j < MemNumAllocated m →
  mem_get (update_at k u m) j = if decide (j = k) then u (mem_get m j) else mem_get m j.
Proof.
  intros Hj. unfold update_at. case_decide as Hk.
  - subst k. by apply mem_get_set_eq.
  - by apply mem_get_set_ne.
Qed.

Lemma get_iter_up base (u : Z → slot → slot) n i0 m j :
  0 ≤ j < MemNumAllocated m →
  mem_get (iter_up (λ i, update_at (base + i) (u i)) n i0 m) j =
    if in_range (base + i0) (Z.of_nat n) j then u (j - base) (mem_get m j) else mem_get m j.
Proof.
  revert i0 m. induction n as [|n IH]; intros i0 m Hj; simpl iter_up.
  - unfold in_range. case_bool_decide; [lia|done].
  - rewrite IH by (by rewrite (proj2 (proj2 (shape_update_at _ _ _)))).
    rewrite get_update_at by done. unfold in_range.
    repeat (case_bool_decide || case_decide); try lia; try done.
    by replace (j - base) with i0 by lia.
Qed.

Lemma get_iter_down (u : slot → slot) n i0 m j :
  0 ≤ j < MemNumAllocated m →
  mem_get (iter_down (λ i, update_at i u) n i0 m) j =
    if in_range (i0 - Z.of_nat n) (Z.of_nat n) j then u (mem_get m j) else mem_get m j.
Proof.
  revert i0 m. induction n as [|n IH]; intros i0 m Hj; simpl iter_down.
  - unfold in_range. case_bool_decide; [lia|done].
  - rewrite IH by (by rewrite (proj2 (proj2 (shape_update_at _ _ _)))).
    rewrite get_update_at by done. unfold in_range.
    repeat (case_bool_decide || case_decide); try lia; try done.
Qed.

Lemma round_up_ge n g : 0 < g → n ≤ round_up n g.
Proof.
  intros Hg. unfold round_up.
  pose proof (Z.div_mod (n + g - 1) g ltac:(lia)) as Hdm.
  pose proof (Z.mod_pos_bound (n + g - 1) g Hg) as Hr. nia.
Qed.

Lemma new_capacity_ge g cap n : cap + n ≤ new_capacity g cap n.
Proof.
  unfold new_capacity. case_decide; [lia|].
  pose proof (round_up_ge n (Z.abs g) ltac:(lia)). lia.
Qed.

Lemma grown_Some m sz num m' :
  grown m sz num = Some m' →
  m_Policy m' = m_Policy m ∧ m_nGrowSize m' = m_nGrowSize m ∧
  MemNumAllocated m ≤ MemNumAllocated m' ∧ sz + num ≤ MemNumAllocated m' ∧
  ∀ j, mem_get m' j = mem_get m j.
Proof.
  unfold grown, MemGrow. intros Hg.
  case_decide as Hgt; [|injection Hg as <-; split_and!; (done || lia)].
  destruct (m_Policy m) eqn:Hp.
  - injection Hg as <-. rewrite cap_extend.
    pose proof (new_capacity_ge (m_nGrowSize m) (MemNumAllocated m) (sz + num - MemNumAllocated m)).
    split_and!; try done; try lia. intros j. apply mem_get_extend.
  - case_decide; [|done]. injection Hg as <-. rewrite cap_extend.
    split_and!; try done; try lia. intros j. apply mem_get_extend.
  - injection Hg as <-. rewrite cap_extend.
    pose proof (new_capacity_ge (m_nGrowSize m) (MemNumAllocated m) (sz + num - MemNumAllocated m)).
    split_and!; try done; try lia. intros j. apply mem_get_extend.
Qed.

Lemma grown_None m sz num :
  grown m sz num = None → is_fixed (m_Policy m) = true.
Proof.
  unfold grown, MemGrow. case_decide; [|done]. by destruct (m_Policy m).
Qed.


Lemma grown_can_hold m sz num :
  can_hold (Array m sz) (sz + num) → is_Some (grown m sz num).
Proof.
  unfold can_hold, grown, MemGrow, NumAllocated. simpl. intros Hh.
  case_decide; [|done]. destruct (m_Policy m); [done| |done].
  case_decide; [done|lia].
Qed.

Lemma grown_fits m sz num :
  sz + num ≤ MemNumAllocated m → grown m sz num = Some m ∧ grow_log m sz num = [].
Proof. intros Hle. unfold grown, grow_log. by case_decide; [lia|]. Qed.

Lemma shape_shifted_right m sz elem num : same_shape m (shifted_right m sz elem num).
Proof. unfold shifted_right. destruct (_ && _); [apply shape_move|done]. Qed.

Lemma shape_shifted_left m sz elem num : same_shape m (shifted_left m sz elem num).
Proof.
  unfold shifted_left. destruct (_ && _); [|done]. destruct debug; [|apply shape_move].
  eapply same_shape_trans; [apply shape_move|apply shape_fill].
Qed.

Lemma get_shifted_right m sz elem num j :
  0 ≤ j < MemNumAllocated m →
  mem_get (shifted_right m sz elem num) j =
    if bool_decide (0 < num ∧ elem + num ≤ j < sz) then mem_get m (j - num)
    else if bool_decide (0 < num ∧ elem ≤ j < sz - num) then vacate (mem_get m j)
    else mem_get m j.
Proof.
  intros Hj. unfold shifted_right.
  destruct (bool_decide (sz - elem - num > 0)) eqn:H1, (bool_decide (num > 0)) eqn:H2; simpl;
    [rewrite mem_get_move by done; unfold in_range|..];
    repeat case_bool_decide; simpl; try lia; try done.
  f_equal. lia.
Qed.

Lemma get_shifted_left m sz elem num j :
  0 ≤ j < MemNumAllocated m →
  mem_get (shifted_left m sz elem num) j =
    if bool_decide (0 < num ∧ elem ≤ j < sz - num) then mem_get m (j + num)
    else if debug && bool_decide (0 < num ∧ elem < sz - num ∧ sz - num ≤ j < sz)
    then Slot T_fill false
    else if negb debug && bool_decide (0 < num ∧ elem < sz - num ∧ elem + num ≤ j < sz)
    then vacate (mem_get m j)
    else mem_get m j.
Proof.
  intros Hj. unfold shifted_left.
  destruct (bool_decide (sz - elem - num > 0)) eqn:H1, (bool_decide (num > 0)) eqn:H2; simpl;
    [destruct debug; simpl;
     [rewrite mem_get_fill by (by rewrite cap_move)|]; rewrite ?mem_get_move by done;
     unfold in_range|..];
    destruct debug; simpl;
    repeat case_bool_decide; simpl; try lia; try done.
  all: same_index.
Qed.

(** ** The logical sequence *)

Lemma contents_length a :
  0 ≤ m_Size a ≤ NumAllocated a → length (contents a) = Z.to_nat (m_Size a).
Proof.
  unfold contents, NumAllocated, MemNumAllocated. intros Hs.
  rewrite length_fmap, length_take. lia.
Qed.

Lemma contents_lookup a k :
  0 ≤ k < m_Size a → m_Size a ≤ NumAllocated a →
  contents a !! Z.to_nat k = Some (Element a k).
Proof.
  unfold contents, NumAllocated, Element. intros Hk Hs.
  rewrite list_lookup_fmap, lookup_take_lt by lia.
  by rewrite mem_lookup_get by lia.
Qed.

Lemma contents_is a (l : list T) :
  0 ≤ m_Size a ≤ NumAllocated a →
  length l = Z.to_nat (m_Size a) →
  (∀ k, 0 ≤ k < m_Size a → l !! Z.to_nat k = Some (Element a k)) →
  contents a = l.
Proof.
  intros Hs Hlen Hl.
  apply list_eq_same_length with (Z.to_nat (m_Size a)); [done|by apply contents_length|].
  intros i x y Hi Hx Hy.
  specialize (Hl (Z.of_nat i) ltac:(lia)).
  rewrite <- (Nat2Z.id i), contents_lookup in Hx by lia.
  rewrite Nat2Z.id in Hl. congruence.
Qed.

Lemma grow_events_app l1 l2 : grow_events (l1 ++ l2) = (grow_events l1 + grow_events l2)%nat.
Proof. unfold grow_events. by rewrite filter_app, length_app. Qed.

Lemma grow_events_grow_log m sz num :
  grow_events (grow_log m sz num) = if decide (sz + num > MemNumAllocated m) then 1%nat else 0%nat.
Proof. unfold grow_log. by case_decide. Qed.

Lemma grow_events_shift_right sz elem num : grow_events (shift_right_log sz elem num) = 0%nat.
Proof. unfold shift_right_log. by destruct (_ && _). Qed.

Lemma grow_events_shift_left sz elem num : grow_events (shift_left_log sz elem num) = 0%nat.
Proof. unfold shift_left_log. destruct (_ && _); [|done]. by destruct debug. Qed.

Lemma wf_live a k :
  wf a → 0 ≤ k → live (mem_get (m_Memory a) k) = bool_decide (k < m_Size a).
Proof.
  intros [Hs Hl] Hk. destruct (decide (k < NumAllocated a)); [by apply Hl|].
  rewrite mem_get_outside by (unfold NumAllocated in *; lia).
  simpl. case_bool_decide; [lia|done].
Qed.

(** ** Insertion of one element *)

Lemma InsertBefore_src_run m sz l elem src :
  0 ≤ elem ≤ sz →
  InsertBefore_src elem src (World (Array m sz) l) =
    match grown m sz 1 with
    | Some m1 =>
        Done elem
          (World (Array (mem_set (shifted_right m1 (sz + 1) elem 1) elem (Slot src true)) (sz + 1))
                 (l ++ grow_log m sz 1 ++ shift_right_log (sz + 1) elem 1 ++ [EvCopyConstruct elem]))
    | None => Fatal (World (Array m sz) (l ++ grow_log m sz 1))
    end.
Proof.
  intros He. unfold InsertBefore_src. exec. passes.
  rewrite GrowVector_run. destruct (grown m sz 1) as [m1|]; [|done].
  rewrite ShiftElementsRight_run by lia. by rewrite <- !app_assoc.
Qed.

(** C3. On an array of size [s] whose storage can take one more element,
    [InsertBefore( i, value )] with [0 ≤ i ≤ s] completes and returns [i].
    It asks the policy to grow exactly when [s + 1] exceeds the capacity;
    afterwards the size is [s + 1], the elements before [i] are where they
    were, [value] sits at [i], and every element formerly at [j ≥ i] sits at
    [j + 1].  The sequence is the old one with [value] inserted at [i]. *)
Theorem InsertBefore_src_correct a elem src :
  wf a → 0 ≤ elem ≤ m_Size a → can_hold a (m_Size a + 1) →
  ∃ a' l,
    run (InsertBefore_src elem src) a = Done elem (World a' l) ∧
    grow_events l = (if decide (m_Size a + 1 > NumAllocated a) then 1%nat else 0%nat) ∧
    Count a' = Count a + 1 ∧
    Count a' ≤ NumAllocated a' ∧
    (∀ j, 0 ≤ j < elem → Element a' j = Element a j) ∧
    Element a' elem = src ∧
    (∀ j, elem ≤ j < Count a → Element a' (j + 1) = Element a j) ∧
    contents a' =
      take (Z.to_nat elem) (contents a) ++ src :: drop (Z.to_nat elem) (contents a) ∧
    wf a'.
Proof.
  destruct a as [m sz]. unfold wf, NumAllocated, Count, Element, run. simpl.
  intros [Hsz Hlive] He Hhold.
  rewrite InsertBefore_src_run by done.
  destruct (grown_can_hold m sz 1 Hhold) as [m1 Hg]. rewrite Hg.
  destruct (grown_Some _ _ _ _ Hg) as (Hp & Hgs & Hcap & Hfit & Hget).
  set (m2 := shifted_right m1 (sz + 1) elem 1).
  pose proof (shape_shifted_right m1 (sz + 1) elem 1) as (_ & _ & Hc2). fold m2 in Hc2.
  assert (Hm3 : ∀ j, 0 ≤ j < MemNumAllocated m1 →
            mem_get (mem_set m2 elem (Slot src true)) j =
              if decide (j = elem) then Slot src true
              else if bool_decide (elem < j ≤ sz) then mem_get m (j - 1)
              else mem_get m j).
  { intros j Hj. case_decide as Hje.
    - subst j. apply mem_get_set_eq. lia.
    - rewrite mem_get_set_ne by done. unfold m2. rewrite get_shifted_right by done.
      rewrite !Hget. repeat case_bool_decide; try lia; done. }
  assert (Hel : ∀ j k, 0 ≤ j < sz + 1 → j = k →
            bits (mem_get (mem_set m2 elem (Slot src true)) k) =
              if decide (j = elem) then src
              else if bool_decide (elem < j ≤ sz) then bits (mem_get m (j - 1))
              else bits (mem_get m j)).
  { intros j k Hj <-. rewrite Hm3 by lia. repeat (case_decide || case_bool_decide); done. }
  eexists _, _. split; [done|]. simpl. split_and!.
  - rewrite ?app_nil_l, !grow_events_app, grow_events_grow_log, grow_events_shift_right.
    case_decide; done.
  - done.
  - rewrite cap_set, Hc2. lia.
  - intros j Hj. rewrite (Hel j) by lia.
    repeat (case_decide || case_bool_decide); try lia; done.
  - rewrite (Hel elem) by lia. by case_decide.
  - intros j Hj. rewrite (Hel (j + 1)) by lia.
    repeat (case_decide || case_bool_decide); try lia. f_equal. f_equal. lia.
  - pose proof (contents_length (Array m sz) ltac:(done)) as Hlen. simpl in Hlen.
    apply contents_is; simpl.
    + unfold NumAllocated. simpl. rewrite cap_set, Hc2. lia.
    + rewrite length_app, length_take. simpl. rewrite length_drop. lia.
    + intros k Hk. unfold Element. simpl. rewrite (Hel k) by lia.
      destruct (decide (k < elem)) as [Hlt|Hge].
      * rewrite lookup_app_l by (rewrite length_take; lia).
        rewrite lookup_take_lt by lia.
        rewrite (contents_lookup (Array m sz)) by (simpl; unfold NumAllocated; simpl; lia).
        repeat (case_decide || case_bool_decide); try lia; done.
      * rewrite lookup_app_r by (rewrite length_take; lia).
        rewrite length_take, Hlen.
        replace (Z.to_nat k - Z.to_nat elem `min` Z.to_nat sz)%nat
          with (Z.to_nat (k - elem)) by lia.
        case_decide as Hke.
        -- subst k. by rewrite Z.sub_diag.
        -- replace (Z.to_nat (k - elem)) with (S (Z.to_nat (k - elem - 1))) by lia.
           simpl. rewrite lookup_drop.
           replace (Z.to_nat elem + Z.to_nat (k - elem - 1))%nat with (Z.to_nat (k - 1)) by lia.
           rewrite (contents_lookup (Array m sz)) by (simpl; unfold NumAllocated; simpl; lia).
           case_bool_decide; [done|lia].
  - lia.
  - rewrite cap_set, Hc2. lia.
  - intros j. rewrite cap_set, Hc2. intros Hj. rewrite Hm3 by done.
    pose proof (λ k, wf_live (Array m sz) k (conj Hsz Hlive)) as Hl'. simpl in Hl'.
    repeat (case_decide || case_bool_decide); simpl; rewrite ?Hl' by lia;
      repeat case_bool_decide; try lia; done.
Qed.

Lemma wfb_wf a : wfb a = true → wf a.
Proof.
  unfold wfb. rewrite andb_true_iff, !bool_decide_eq_true. intros [Hs Hl].
  split; [done|]. intros i Hi. unfold NumAllocated in *.
  pose proof (mem_lookup_get (m_Memory a) i Hi) as Hget.
  assert (Hlk : (live <$> m_Slots (m_Memory a)) !! Z.to_nat i = Some (live (mem_get (m_Memory a) i))).
  { by rewrite list_lookup_fmap, Hget. }
  rewrite Hl in Hlk. case_bool_decide.
  - rewrite lookup_app_l in Hlk by (rewrite length_replicate; lia).
    apply lookup_replicate in Hlk as [-> _]. done.
  - rewrite lookup_app_r in Hlk by (rewrite length_replicate; lia).
    apply lookup_replicate in Hlk as [-> _]. done.
Qed.

(** ** Removal *)

Lemma FastRemove_correct a elem :
  wf a → IsValidIndex a elem = true →
  ∃ a' l,
    run (FastRemove elem) a = Done tt (World a' l) ∧
    l = [EvDestruct elem; EvMove elem (Count a - 1) 1] ∧
    cost l = 2 ∧
    Count a' = Count a - 1 ∧
    (elem ≠ Count a - 1 → Element a' elem = Element a (Count a - 1)) ∧
    (∀ j, 0 ≤ j < Count a - 1 → j ≠ elem → Element a' j = Element a j) ∧
    wf a'.
Proof.
  destruct a as [m sz]. rewrite IsValidIndex_true. unfold Count, Element, run. simpl.
  intros Hwf He. pose proof Hwf as [Hsz Hlive]. unfold NumAllocated in *. simpl in *.
  rewrite FastRemove_run by done.
  pose proof (shape_update_at m elem vacate) as (_ & _ & Hc1).
  assert (Hm : ∀ j, 0 ≤ j < MemNumAllocated m →
            mem_get (mem_move (update_at elem vacate m) elem (sz - 1) 1) j =
              if decide (j = elem)
              then (if decide (elem = sz - 1) then vacate (mem_get m elem) else mem_get m (sz - 1))
              else if decide (j = sz - 1) then vacate (mem_get m j)
              else mem_get m j).
  { intros j Hj. rewrite mem_get_move by (by rewrite Hc1). unfold in_range.
    repeat (case_bool_decide || case_decide); try lia;
      rewrite get_update_at by lia; repeat case_decide; try lia; try done.
    all: same_index. }
  eexists _, _. split; [done|]. simpl. split_and!; try done.
  - intros Hne. rewrite Hm by lia. by repeat case_decide.
  - intros j Hj Hne. rewrite Hm by lia. repeat case_decide; try lia; done.
  - split; unfold NumAllocated; simpl; rewrite cap_move, Hc1; [lia|].
    intros j Hj. rewrite Hm by done.
    repeat case_decide; simpl; rewrite ?Hlive by lia; repeat case_bool_decide; try lia; done.
Qed.

Lemma mem_move_self m k : mem_move m k k 1 = m.
Proof.
  symmetry. apply mem_ext; [done|done|by rewrite cap_move|].
  intros j Hj. rewrite mem_get_move by done. unfold in_range.
  case_bool_decide; [|done]. f_equal. lia.
Qed.

Lemma contents_update_last m sz u :
  contents (Array (update_at (sz - 1) u m) (sz - 1)) = take (Z.to_nat (sz - 1)) (contents (Array m sz)).
Proof.
  unfold contents, update_at, mem_set. simpl.
  rewrite <- fmap_take, take_take. replace (_ `min` _)%nat with (Z.to_nat (sz - 1)) by lia.
  case_decide; [|done]. simpl. by rewrite take_insert_ge.
Qed.

(** C10. On a non-empty array of size [s], [FastRemove( s - 1 )] and
    [Remove( s - 1 )] leave the same array: the size is [s - 1], the sequence
    is the old one without its last element, and every index below [s - 1]
    holds what it held. *)
Theorem FastRemove_last_Remove a :
  0 < Count a →
  ∃ a',
    final (run (FastRemove (Count a - 1)) a) = Some a' ∧
    final (run (Remove (Count a - 1)) a) = Some a' ∧
    Count a' = Count a - 1 ∧
    contents a' = take (Z.to_nat (Count a - 1)) (contents a) ∧
    (∀ j, 0 ≤ j < Count a - 1 → Element a' j = Element a j).
Proof.
  destruct a as [m sz]. unfold Count, run. simpl. intros Hsz.
  rewrite FastRemove_run, Remove_run by lia. simpl.
  rewrite mem_move_self. unfold shifted_left.
  replace (bool_decide (sz - (sz - 1) - 1 > 0)) with false by (by case_bool_decide; [lia|]).
  simpl. eexists. split_and!; try done.
  - apply contents_update_last.
  - intros j Hj. unfold Element, update_at. simpl. by rewrite mem_get_set_ne by lia.
Qed.

Lemma Find_from_spec a src n i :
  (Find_from a src n i = -1 ∧
   ∀ k, i ≤ k < i + Z.of_nat n → T_eq (Element a k) src = false) ∨
  (i ≤ Find_from a src n i < i + Z.of_nat n ∧
   T_eq (Element a (Find_from a src n i)) src = true ∧
   ∀ k, i ≤ k < Find_from a src n i → T_eq (Element a k) src = false).
Proof.
  revert i. induction n as [|n IH]; intros i; simpl Find_from.
  - left. split; [done|]. intros k Hk. lia.
  - destruct (T_eq (Element a i) src) eqn:Heq.
    + right. split_and!; [lia|lia|done|]. intros k Hk. lia.
    + destruct (IH (i + 1)) as [[Hnone Hall]|(Hr & Hhit & Hbefore)].
      * left. split; [done|]. intros k Hk.
        destruct (decide (k = i)) as [->|]; [done|]. apply Hall. lia.
      * right. split_and!; [lia|lia|done|]. intros k Hk.
        destruct (decide (k = i)) as [->|]; [done|]. apply Hbefore. lia.
Qed.

Lemma Remove_correct a elem :
  wf a → 0 ≤ elem < m_Size a →
  ∃ a' l,
    run (Remove elem) a = Done tt (World a' l) ∧
    Count a' = Count a - 1 ∧
    (∀ j, 0 ≤ j < elem → Element a' j = Element a j) ∧
    (∀ j, elem ≤ j < Count a - 1 → Element a' j = Element a (j + 1)) ∧
    contents a' = delete (Z.to_nat elem) (contents a) ∧
    wf a'.
Proof.
  destruct a as [m sz]. unfold Count, Element, run. simpl.
  intros Hwf He. pose proof Hwf as [Hsz Hlive]. unfold NumAllocated in *. simpl in *.
  rewrite Remove_run by lia.
  pose proof (shape_update_at m elem vacate) as (_ & _ & Hc1).
  pose proof (shape_shifted_left (update_at elem vacate m) sz elem 1) as (_ & _ & Hc2).
  rewrite Hc1 in Hc2.
  assert (Hm : ∀ j, 0 ≤ j < MemNumAllocated m →
            mem_get (shifted_left (update_at elem vacate m) sz elem 1) j =
              if bool_decide (elem ≤ j < sz - 1) then mem_get m (j + 1)
              else if decide (j = sz - 1)
                   then (if debug && bool_decide (elem < sz - 1)
                         then Slot T_fill false else vacate (mem_get m j))
              else mem_get m j).
  { intros j Hj. rewrite get_shifted_left by (by rewrite Hc1).
    destruct debug; simpl;
      repeat (case_bool_decide || case_decide); try lia;
      rewrite ?get_update_at by lia; repeat case_decide; try lia; done. }
  eexists _, _. split; [done|]. simpl. split_and!; try done.
  - intros j Hj. rewrite Hm by lia. repeat (case_bool_decide || case_decide); try lia; done.
  - intros j Hj. rewrite Hm by lia. repeat (case_bool_decide || case_decide); try lia; done.
  - pose proof (contents_length (Array m sz) ltac:(done)) as Hlen. simpl in Hlen.
    apply contents_is; simpl.
    + unfold NumAllocated. simpl. rewrite Hc2. lia.
    + rewrite length_delete, Hlen.
      * lia.
      * apply lookup_lt_is_Some_2. lia.
    + intros k Hk. unfold Element. simpl. rewrite Hm by lia.
      destruct (decide (k < elem)) as [Hlt|Hge].
      * rewrite list_lookup_delete_lt by lia.
        rewrite (contents_lookup (Array m sz)) by (simpl; unfold NumAllocated; simpl; lia).
        repeat (case_bool_decide || case_decide); simpl in *; try lia; done.
      * rewrite list_lookup_delete_ge by lia.
        replace (S (Z.to_nat k)) with (Z.to_nat (k + 1)) by lia.
        rewrite (contents_lookup (Array m sz)) by (simpl; unfold NumAllocated; simpl; lia).
        repeat (case_bool_decide || case_decide); simpl in *; try lia; done.
  - split; unfold NumAllocated; simpl; rewrite Hc2; [lia|].
    intros j Hj. rewrite Hm by done.
    destruct debug; repeat (case_bool_decide || case_decide); simpl; rewrite ?Hlive by lia;
      repeat case_bool_decide; try lia; done.
Qed.

(** C5. [FindAndRemove( value )] looks for the first element equal to
    [value].  When there is none it returns [false] and leaves the array as
    it was, without performing any step.  Otherwise it returns [true], the
    element at the first matching index is removed, and the others keep
    their relative order: the sequence is the old one with that index
    deleted, and the size is one less. *)
Theorem FindAndRemove_correct a src :
  wf a →
  (Find a src = -1 ∧
   (∀ k, 0 ≤ k < Count a → T_eq (Element a k) src = false) ∧
   run (FindAndRemove src) a = Done false (World a [])) ∨
  (∃ a' l,
     0 ≤ Find a src < Count a ∧
     T_eq (Element a (Find a src)) src = true ∧
     (∀ k, 0 ≤ k < Find a src → T_eq (Element a k) src = false) ∧
     run (FindAndRemove src) a = Done true (World a' l) ∧
     Count a' = Count a - 1 ∧
     contents a' = delete (Z.to_nat (Find a src)) (contents a) ∧
     wf a').
Proof.
  intros Hwf. pose proof Hwf as [Hsz _].
  destruct (Find_from_spec a src (Z.to_nat (Count a)) 0) as [[Hnone Hall]|(Hr & Hhit & Hbefore)];
    fold (Find a src) in *; unfold Count in *.
  - left. split_and!; [done|intros k Hk; apply Hall; lia|].
    unfold run, FindAndRemove. exec. rewrite Hnone. by destruct a.
  - right. destruct (Remove_correct a (Find a src) Hwf ltac:(lia))
      as (a' & l & Hrun & Hc & _ & _ & Hcont & Hwf').
    exists a', l. split_and!; try done; try lia.
    unfold run, FindAndRemove in *. exec. case_decide; [|lia].
    by rewrite Hrun.
Qed.

(** ** Insertion and removal of several elements *)

Lemma shape_constructed m elem num : same_shape m (constructed m elem num).
Proof. apply shape_iter_up. intros. apply shape_update_at. Qed.

Lemma shape_assigned m elem num v : same_shape m (assigned m elem num v).
Proof. apply shape_iter_up. intros. apply shape_update_at. Qed.

Lemma shape_destructed m hi num : same_shape m (destructed m hi num).
Proof. apply shape_iter_down. intros. apply shape_update_at. Qed.

Lemma shape_inserted m sz elem num p : same_shape m (inserted m sz elem num p).
Proof.
  unfold inserted.
  pose proof (same_shape_trans _ _ _ (shape_shifted_right m (sz + num) elem num)
                (shape_constructed _ elem num)) as Hs.
  destruct p; [|done]. eapply same_shape_trans; [exact Hs|apply shape_assigned].
Qed.

Lemma get_constructed m elem num j :
  0 ≤ j < MemNumAllocated m →
  mem_get (constructed m elem num) j =
    if bool_decide (elem ≤ j < elem + num) then Slot T_default true else mem_get m j.
Proof.
  intros Hj. unfold constructed. rewrite get_iter_up by done. unfold in_range.
  repeat case_bool_decide; try lia; done.
Qed.

Lemma get_assigned m elem num v j :
  0 ≤ j < MemNumAllocated m →
  mem_get (assigned m elem num v) j =
    if bool_decide (elem ≤ j < elem + num) then Slot (v (j - elem)) (live (mem_get m j))
    else mem_get m j.
Proof.
  intros Hj. unfold assigned. rewrite get_iter_up by done. unfold in_range.
  repeat case_bool_decide; try lia; done.
Qed.

Lemma get_destructed m hi num j :
  0 ≤ j < MemNumAllocated m →
  mem_get (destructed m hi num) j =
    if bool_decide (hi - num ≤ j < hi ∧ 0 ≤ num) then vacate (mem_get m j) else mem_get m j.
Proof.
  intros Hj. unfold destructed. rewrite get_iter_down by done. unfold in_range.
  repeat case_bool_decide; try lia; done.
Qed.

Lemma get_inserted m sz elem num p j :
  0 < num → 0 ≤ j < MemNumAllocated m →
  mem_get (inserted m sz elem num p) j =
    if bool_decide (elem ≤ j < elem + num)
    then Slot (match p with Some p => src_at p (j - elem) | None => T_default end) true
    else if bool_decide (elem + num ≤ j < sz + num) then mem_get m (j - num)
    else mem_get m j.
Proof.
  intros Hnum Hj. unfold inserted.
  pose proof (shape_shifted_right m (sz + num) elem num) as (_ & _ & Hc1).
  pose proof (shape_constructed (shifted_right m (sz + num) elem num) elem num) as (_ & _ & Hc2).
  destruct p as [p|].
  - rewrite get_assigned by lia. rewrite get_constructed by lia.
    rewrite get_shifted_right by lia.
    repeat case_bool_decide; simpl; try lia; done.
  - rewrite get_constructed by lia. rewrite get_shifted_right by lia.
    repeat case_bool_decide; simpl; try lia; done.
Qed.

Lemma InsertMultipleBefore_run m sz l elem num p :
  0 ≤ elem ≤ sz → 0 ≤ num →
  InsertMultipleBefore elem num p (World (Array m sz) l) =
    if decide (num = 0) then Done elem (World (Array m sz) l)
    else match grown m sz num with
         | Some m1 =>
             Done elem (World (Array (inserted m1 sz elem num p) (sz + num))
                              (l ++ grow_log m sz num ++ insert_log sz elem num p))
         | None => Fatal (World (Array m sz) (l ++ grow_log m sz num))
         end.
Proof.
  intros He Hn. unfold InsertMultipleBefore. case_decide; [done|].
  exec. passes. rewrite GrowVector_run. destruct (grown m sz num) as [m1|]; [|done].
  rewrite ShiftElementsRight_run by lia.
  rewrite (for_up_run _ _ _ (Construct_step elem)).
  unfold inserted, insert_log, constructed, assigned. destruct p as [p|].
  - rewrite (for_up_run _ _ _ (Assign_step elem (src_at p))). by rewrite <- !app_assoc.
  - by rewrite app_nil_r, <- !app_assoc.
Qed.

Lemma wf_inserted m sz elem num p m1 :
  wf (Array m sz) → grown m sz num = Some m1 → 0 ≤ elem ≤ sz → 0 < num →
  wf (Array (inserted m1 sz elem num p) (sz + num)).
Proof.
  intros Hwf Hg He Hn. pose proof Hwf as [Hsz _].
  pose proof (λ k, wf_live _ k Hwf) as Hlive.
  destruct (grown_Some _ _ _ _ Hg) as (_ & _ & Hcap & Hfit & Hget).
  pose proof (shape_inserted m1 sz elem num p) as (_ & _ & Hc).
  unfold NumAllocated in *. simpl in *.
  split; unfold NumAllocated; simpl; rewrite Hc; [lia|].
  intros j Hj. rewrite get_inserted by lia. rewrite !Hget.
  repeat case_bool_decide; simpl; rewrite ?Hlive by lia; repeat case_bool_decide; try lia; done.
Qed.

Lemma wf_insert_one m sz elem v m1 :
  wf (Array m sz) → grown m sz 1 = Some m1 → 0 ≤ elem ≤ sz →
  wf (Array (mem_set (shifted_right m1 (sz + 1) elem 1) elem (Slot v true)) (sz + 1)).
Proof.
  intros Hwf Hg He. pose proof Hwf as [Hsz _].
  pose proof (λ k, wf_live _ k Hwf) as Hlive.
  destruct (grown_Some _ _ _ _ Hg) as (_ & _ & Hcap & Hfit & Hget).
  pose proof (shape_shifted_right m1 (sz + 1) elem 1) as (_ & _ & Hc).
  unfold NumAllocated in *. simpl in *.
  split; unfold NumAllocated; simpl; rewrite cap_set, Hc; [lia|].
  intros j Hj. destruct (decide (j = elem)) as [->|Hne].
  - rewrite mem_get_set_eq by lia. simpl. case_bool_decide; [done|lia].
  - rewrite mem_get_set_ne by done. rewrite get_shifted_right by done. rewrite !Hget.
    repeat case_bool_decide; simpl; rewrite ?Hlive by lia; repeat case_bool_decide; try lia; done.
Qed.

Lemma wf_destructed_all m sz : wf (Array m sz) → wf (Array (destructed m sz sz) 0).
Proof.
  intros Hwf. pose proof Hwf as [Hsz Hlive].
  pose proof (shape_destructed m sz sz) as (_ & _ & Hc).
  unfold NumAllocated in *. simpl in *.
  split; unfold NumAllocated; simpl; rewrite Hc; [lia|].
  intros j Hj. rewrite get_destructed by done.
  repeat case_bool_decide; simpl; rewrite ?Hlive by lia; repeat case_bool_decide; try lia; done.
Qed.

Lemma RemoveMultiple_run m sz l elem num :
  0 ≤ elem → 0 ≤ num → elem + num ≤ sz →
  RemoveMultiple elem num (World (Array m sz) l) =
    Done tt (World (Array (shifted_left (destructed m (elem + num) num) sz elem num) (sz - num))
                   (l ++ events_down EvDestruct (Z.to_nat num) (elem + num) ++
                         shift_left_log sz elem num)).
Proof.
  intros He Hn Hs. unfold RemoveMultiple. exec. do 2 passes.
  rewrite (for_down_run _ _ _ Destruct_step).
  rewrite ShiftElementsLeft_run by lia. by rewrite <- !app_assoc.
Qed.

Lemma wf_RemoveMultiple m sz elem num :
  wf (Array m sz) → 0 ≤ elem → 0 ≤ num → elem + num ≤ sz →
  wf (Array (shifted_left (destructed m (elem + num) num) sz elem num) (sz - num)).
Proof.
  intros Hwf He Hn Hs. pose proof Hwf as [Hsz Hlive].
  pose proof (shape_destructed m (elem + num) num) as (_ & _ & Hc1).
  pose proof (shape_shifted_left (destructed m (elem + num) num) sz elem num) as (_ & _ & Hc2).
  unfold NumAllocated in *. simpl in *.
  split; unfold NumAllocated; simpl; rewrite Hc2, Hc1; [lia|].
  intros j Hj. rewrite get_shifted_left by lia.
  destruct debug; simpl; repeat case_bool_decide; simpl; try lia;
    rewrite get_destructed by lia; repeat case_bool_decide; simpl;
    rewrite ?Hlive by lia; repeat case_bool_decide; try lia; done.
Qed.

(** ** Purge *)

Lemma Purge_run m sz l :
  Purge (World (Array m sz) l) =
    Done tt (World (Array (MemPurge (destructed m sz sz)) 0)
                   (l ++ events_down EvDestruct (Z.to_nat sz) sz)).
Proof. unfold Purge. rewrite run_bind, RemoveAll_run. done. Qed.

Lemma MemPurge_idemp m : MemPurge (MemPurge m) = MemPurge m.
Proof. unfold MemPurge. destruct (m_Policy m) eqn:Hp; simpl; by rewrite ?Hp. Qed.

Lemma cap_MemPurge m : MemNumAllocated (MemPurge m) = zero_capacity m.
Proof. unfold MemPurge, zero_capacity. by destruct (m_Policy m). Qed.

(** C8. [Purge()] is idempotent.  One call leaves size 0 and the storage
    released, the capacity being that of the policy's zero state (0 for the
    growable policies); a second call completes without performing any step
    and leaves exactly the same array. *)
Theorem Purge_idempotent a :
  ∃ a1 l1,
    run Purge a = Done tt (World a1 l1) ∧
    Count a1 = 0 ∧
    NumAllocated a1 = zero_capacity (m_Memory a) ∧
    (is_fixed (m_Policy (m_Memory a)) = false → NumAllocated a1 = 0) ∧
    run Purge a1 = Done tt (World a1 []).
Proof.
  destruct a as [m sz]. unfold run. rewrite Purge_run. eexists _, _. split; [done|].
  pose proof (shape_destructed m sz sz) as (Hp & _ & Hc).
  assert (Hz : NumAllocated (Array (MemPurge (destructed m sz sz)) 0) = zero_capacity m).
  { unfold NumAllocated. simpl. rewrite cap_MemPurge. unfold zero_capacity. by rewrite Hp, Hc. }
  split_and!; [done|done| |].
  - rewrite Hz. unfold zero_capacity. simpl. by destruct (m_Policy m).
  - rewrite Purge_run. simpl. unfold destructed. simpl. by rewrite MemPurge_idemp.
Qed.

(** ** Resetting and copying *)

Lemma SetCount_run m sz l count :
  0 ≤ count →
  ∃ l',
    SetCount count (World (Array m sz) l) =
      if decide (count = 0) then Done tt (World (Array (destructed m sz sz) 0) l')
      else match grown (destructed m sz sz) 0 count with
           | Some m1 => Done tt (World (Array (inserted m1 0 0 count None) count) l')
           | None => Fatal (World (Array (destructed m sz sz) 0) l')
           end.
Proof.
  intros Hc. unfold SetCount, AddMultipleToTail. rewrite run_bind, RemoveAll_run.
  rewrite !run_bind. unfold get at 1. simpl.
  rewrite InsertMultipleBefore_run by (simpl; lia).
  case_decide; [by eexists|].
  destruct (grown _ 0 count); by eexists.
Qed.

Lemma wf_same_live m m' sz :
  same_shape m m' →
  (∀ j, 0 ≤ j < MemNumAllocated m → live (mem_get m' j) = live (mem_get m j)) →
  wf (Array m sz) → wf (Array m' sz).
Proof.
  intros (_ & _ & Hc) Hl [Hsz Hlive]. unfold NumAllocated in *. simpl in *.
  split; unfold NumAllocated; simpl; rewrite Hc; [done|].
  intros j Hj. by rewrite Hl, Hlive.
Qed.

Lemma wf_assigned m sz elem num v :
  wf (Array m sz) → wf (Array (assigned m elem num v) sz).
Proof.
  apply wf_same_live; [apply shape_assigned|].
  intros j Hj. rewrite get_assigned by done. by case_bool_decide.
Qed.

Lemma wf_SetCount m sz count m1 :
  wf (Array m sz) → 0 < count → grown (destructed m sz sz) 0 count = Some m1 →
  wf (Array (inserted m1 0 0 count None) count).
Proof.
  intros Hwf Hc Hg.
  pose proof (wf_inserted _ 0 0 count None m1 (wf_destructed_all _ _ Hwf) Hg) as Hw.
  rewrite Z.add_0_l in Hw. apply Hw; lia.
Qed.

(** C9. For well-formed arrays [a] and [b], [b]'s element count being one
    [a]'s storage can hold, the assignment [a = b] completes, gives [a] the
    element count of [b] and, index by index, the elements of [b]: the
    sequence of [a] is then that of [b].  ([b] is an operand passed by
    value, so it is unchanged.) *)
Theorem assign_from_correct a other :
  wf a → wf other → can_hold a (Count other) →
  ∃ a' l,
    run (assign_from other) a = Done tt (World a' l) ∧
    Count a' = Count other ∧
    (∀ i, 0 ≤ i < Count other → Element a' i = Element other i) ∧
    contents a' = contents other ∧
    wf a'.
Proof.
  destruct a as [m sz]. intros Hwf Hwo Hhold. pose proof Hwo as [Hso _].
  unfold run, assign_from. rewrite run_bind. unfold SetSize.
  destruct (SetCount_run m sz [] (Count other)) as [l' ->]; [unfold Count; lia|].
  pose proof (shape_destructed m sz sz) as (Hp0 & _ & Hc0).
  assert (Hfin : ∀ m' l0 n,
            n = Count other → wf (Array m' n) →
            ∃ a' l,
              for_up (Z.to_nat (Count other)) 0 (λ i, AssignElement i (Element other i))
                (World (Array m' n) l0) = Done tt (World a' l) ∧
              Count a' = Count other ∧
              (∀ i, 0 ≤ i < Count other → Element a' i = Element other i) ∧
              contents a' = contents other ∧ wf a').
  { intros m' l0 n -> Hw'.
    rewrite (for_up_run _ _ _ (Assign_step 0 (Element other))).
    fold (assigned m' 0 (Count other) (Element other)).
    eexists _, _. split; [done|].
    pose proof (wf_assigned m' (Count other) 0 (Count other) (Element other) Hw') as Hwa.
    pose proof Hw' as [Hn' _]. unfold NumAllocated in Hn'. simpl in Hn'.
    assert (Hel : ∀ i, 0 ≤ i < Count other →
              Element (Array (assigned m' 0 (Count other) (Element other)) (Count other)) i =
                Element other i).
    { intros i Hi. unfold Element at 1. simpl. rewrite get_assigned by lia.
      case_bool_decide; [|lia]. simpl. f_equal. lia. }
    split_and!; [done|done| |done].
    apply contents_is.
    - apply Hwa.
    - simpl. apply contents_length. done.
    - simpl. intros k Hk. rewrite Hel by done. apply contents_lookup; [done|]. apply Hso. }
  case_decide as Hz.
  - apply Hfin; [done|]. by apply wf_destructed_all.
  - destruct (grown_can_hold (destructed m sz sz) 0 (Count other)) as [m1 Hg].
    { unfold can_hold, NumAllocated in *. simpl in *. rewrite Hp0, Hc0.
      destruct (m_Policy m); [done| |done]. rewrite Z.add_0_l. done. }
    rewrite Hg. apply Hfin; [done|]. apply (wf_SetCount m sz); [done|unfold Count in *; lia|done].
Qed.

(** ** Preallocation *)

Lemma MemEnsureCapacity_Some m num m' :
  MemEnsureCapacity m num = Some m' →
  m_Policy m' = m_Policy m ∧ m_nGrowSize m' = m_nGrowSize m ∧
  MemNumAllocated m ≤ MemNumAllocated m' ∧ num ≤ MemNumAllocated m' ∧
  ∀ j, mem_get m' j = mem_get m j.
Proof.
  unfold MemEnsureCapacity. intros He.
  case_decide; [injection He as <-; split_and!; (done || lia)|].
  destruct (m_Policy m) eqn:Hp.
  - injection He as <-. rewrite cap_extend. split_and!; try done; try lia.
    intros j. apply mem_get_extend.
  - case_decide; [|done]. injection He as <-. rewrite cap_extend.
    split_and!; try done; try lia. intros j. apply mem_get_extend.
  - injection He as <-. rewrite cap_extend. split_and!; try done; try lia.
    intros j. apply mem_get_extend.
Qed.

Lemma MemEnsureCapacity_can_hold m sz num :
  can_hold (Array m sz) num → is_Some (MemEnsureCapacity m num).
Proof.
  unfold can_hold, MemEnsureCapacity, NumAllocated. simpl. intros Hh.
  case_decide; [done|]. destruct (m_Policy m); [done| |done].
  case_decide; [done|lia].
Qed.

Lemma EnsureCapacity_run m sz l num :
  EnsureCapacity num (World (Array m sz) l) =
    match MemEnsureCapacity m num with
    | Some m' => Done tt (World (Array m' sz) l)
    | None => Fatal (World (Array m sz) l)
    end.
Proof. unfold EnsureCapacity. exec. by destruct (MemEnsureCapacity m num). Qed.

Lemma contents_same_get m m' sz :
  0 ≤ sz ≤ MemNumAllocated m → MemNumAllocated m ≤ MemNumAllocated m' →
  (∀ j, mem_get m' j = mem_get m j) →
  contents (Array m' sz) = contents (Array m sz).
Proof.
  intros Hsz Hc Hget. apply contents_is; simpl.
  - unfold NumAllocated. simpl. lia.
  - by apply contents_length.
  - intros k Hk. rewrite (contents_lookup (Array m sz)) by (by unfold NumAllocated; simpl; lia).
    unfold Element. simpl. by rewrite Hget.
Qed.

Lemma wf_same_get m m' sz :
  MemNumAllocated m ≤ MemNumAllocated m' → (∀ j, mem_get m' j = mem_get m j) →
  wf (Array m sz) → wf (Array m' sz).
Proof.
  intros Hc Hget Hwf. pose proof Hwf as [Hsz _].
  pose proof (λ k, wf_live _ k Hwf) as Hlive. unfold NumAllocated in *. simpl in *.
  split; unfold NumAllocated; simpl; [lia|].
  intros j Hj. rewrite Hget. apply Hlive. lia.
Qed.

Lemma grow_events_events_up e n i :
  (∀ k, is_grow (e k) = false) → grow_events (events_up e n i) = 0%nat.
Proof.
  intros He. revert i. induction n as [|n IH]; intros i; [done|].
  simpl. unfold grow_events in *. rewrite filter_cons. case_decide as Hg.
  - by rewrite He in Hg.
  - apply IH.
Qed.

Lemma grow_events_one e : is_grow e = false → grow_events [e] = 0%nat.
Proof.
  intros He. unfold grow_events. rewrite filter_cons. case_decide; [congruence|done].
Qed.

Lemma grow_events_insert_log sz elem num p : grow_events (insert_log sz elem num p) = 0%nat.
Proof.
  unfold insert_log. rewrite !grow_events_app, grow_events_shift_right.
  rewrite grow_events_events_up by done.
  destruct p; [by rewrite grow_events_events_up|done].
Qed.

Lemma InsertBefore_run m sz l elem :
  0 ≤ elem ≤ sz →
  InsertBefore elem (World (Array m sz) l) =
    match grown m sz 1 with
    | Some m1 =>
        Done elem
          (World (Array (mem_set (shifted_right m1 (sz + 1) elem 1) elem (Slot T_default true))
                        (sz + 1))
                 (l ++ grow_log m sz 1 ++ shift_right_log (sz + 1) elem 1 ++ [EvConstruct elem]))
    | None => Fatal (World (Array m sz) (l ++ grow_log m sz 1))
    end.
Proof.
  intros He. unfold InsertBefore. exec. passes.
  rewrite GrowVector_run. destruct (grown m sz 1) as [m1|]; [|done].
  rewrite ShiftElementsRight_run by lia. by rewrite <- !app_assoc.
Qed.

(** An inserting call that finds room completes without asking the policy
    to grow, and leaves the capacity as it was. *)
Lemma insert_in_place o w :
  is_insert o = true → requires o (arr w) → 0 ≤ m_Size (arr w) →
  m_Size (arr w) + added o ≤ NumAllocated (arr w) →
  ∃ r w',
    exec o w = Done r w' ∧
    m_Size (arr w') = m_Size (arr w) + added o ∧
    NumAllocated (arr w') = NumAllocated (arr w) ∧
    grow_events (log w') = grow_events (log w).
Proof.
  destruct w as [[m sz] l]. unfold NumAllocated. simpl. intros Hins Hreq Hpos Hroom.
  assert (Hone : ∀ elem v,
            MemNumAllocated (mem_set (shifted_right m (sz + 1) elem 1) elem v) = MemNumAllocated m).
  { intros. rewrite cap_set. apply shape_shifted_right. }
  assert (Hlog1 : ∀ elem e, sz + 1 ≤ MemNumAllocated m → is_grow e = false →
            grow_events (l ++ grow_log m sz 1 ++ shift_right_log (sz + 1) elem 1 ++ [e])
              = grow_events l).
  { intros elem e Hr He. rewrite !grow_events_app, grow_events_shift_right.
    rewrite (proj2 (grown_fits m sz 1 Hr)), (grow_events_one e He). simpl. lia. }
  assert (Hmul : ∀ elem num p, 0 ≤ elem ≤ sz → 0 ≤ num → sz + num ≤ MemNumAllocated m →
            ∃ (r : retval) w',
              returning RInt (InsertMultipleBefore elem num p) (World (Array m sz) l)
                = Done r w' ∧
              m_Size (arr w') = sz + num ∧
              MemNumAllocated (m_Memory (arr w')) = MemNumAllocated m ∧
              grow_events (log w') = grow_events l).
  { intros elem num p He Hn Hr. unfold returning. rewrite run_bind.
    rewrite InsertMultipleBefore_run by done. case_decide as Hz.
    - eexists _, _. split; [done|]. simpl. split_and!; [lia|done|done].
    - destruct (grown_fits m sz num Hr) as [-> ->].
      eexists _, _. split; [done|]. simpl. split_and!; [done|apply shape_inserted|].
      rewrite !grow_events_app, grow_events_insert_log. simpl. lia. }
  destruct o; try discriminate Hins; simpl in Hreq, Hroom |- *;
    unfold AddToHead, AddToTail, InsertAfter, AddToHead_src, AddToTail_src, InsertAfter_src,
           AddMultipleToHead, AddMultipleToTail, InsertMultipleAfter;
    try (apply Hmul; lia);
    try (unfold returning; rewrite !run_bind; unfold get; simpl; apply Hmul; simpl; lia);
    unfold returning; rewrite ?run_bind; unfold get; simpl;
    rewrite ?InsertBefore_run, ?InsertBefore_src_run by lia;
    rewrite (proj1 (grown_fits m sz 1 Hroom));
    (eexists _, _; split; [done|]); simpl; (split_and!; [done|apply Hone|by apply Hlog1]).

Qed.

Lemma added_nonneg o a : is_insert o = true → requires o a → 0 ≤ added o.
Proof. destruct o; try discriminate; simpl; lia. Qed.

Lemma budget_no_growth n os w :
  0 ≤ m_Size (arr w) → n ≤ NumAllocated (arr w) → budget n os w →
  ∃ w',
    exec_all os w = Done tt w' ∧
    grow_events (log w') = grow_events (log w) ∧
    NumAllocated (arr w') = NumAllocated (arr w).
Proof.
  revert w. induction os as [|o os IH]; intros w Hpos Hcap Hb; simpl in *.
  - by exists w.
  - destruct Hb as (Hins & Hreq & Hle & Hrest).
    destruct (insert_in_place o w Hins Hreq Hpos ltac:(lia)) as (r & w1 & Hrun & Hs & Hc & Hg).
    pose proof (added_nonneg o _ Hins Hreq) as Hadd.
    destruct (IH w1) as (w' & Hall & Hg' & Hc'); [lia|lia|by eapply Hrest|].
    exists w'. rewrite run_bind, Hrun. split_and!; [done|congruence|congruence].
Qed.

(** C7. [EnsureCapacity( n )], for an [n] the policy can hold, keeps the
    size and the elements and makes the capacity at least [n].  After it,
    every sequence of inserting calls that never takes the element count
    past [n] completes without a single call of the policy's [Grow]. *)
Theorem EnsureCapacity_correct a n :
  wf a → can_hold a n →
  ∃ a1,
    run (EnsureCapacity n) a = Done tt (World a1 []) ∧
    Count a1 = Count a ∧
    contents a1 = contents a ∧
    n ≤ NumAllocated a1 ∧
    wf a1 ∧
    ∀ os, budget n os (World a1 []) →
      ∃ w', exec_all os (World a1 []) = Done tt w' ∧ grow_events (log w') = 0%nat.
Proof.
  destruct a as [m sz]. intros Hwf Hhold. pose proof Hwf as [Hsz _].
  unfold run. rewrite EnsureCapacity_run.
  destruct (MemEnsureCapacity_can_hold m sz n Hhold) as [m' Hm']. rewrite Hm'.
  destruct (MemEnsureCapacity_Some _ _ _ Hm') as (_ & _ & Hc & Hn & Hget).
  unfold NumAllocated in *. simpl in *.
  exists (Array m' sz). split_and!; try done.
  - by apply contents_same_get.
  - by apply (wf_same_get m).
  - intros os Hb.
    destruct (budget_no_growth n os (World (Array m' sz) [])) as (w' & Hall & Hg & _);
      [simpl; lia|done|done|].
    by exists w'.
Qed.

(** ** Every operation keeps the invariant *)












































Lemma safe_done {A} P (c : M A) a l :
  safe_on P c → wf a → P a →
  match c (World a l) with
  | Done _ w' => wf (arr w')
  | Fatal w' => refused w'
  end.
Proof. intros Hc Hwf HP. specialize (Hc a l Hwf HP). destruct (c _); [apply Hc|done]. Qed.





(** ** Further properties of the methods *)

Lemma lookup_splice (c mid : list T) (e k : nat) :
  (e ≤ length c)%nat →
  (take e c ++ mid ++ drop e c) !! k =
    if decide (k < e)%nat then c !! k
    else if decide (k < e + length mid)%nat then mid !! (k - e)%nat
    else c !! (k - length mid)%nat.
Proof.
  intros He. case_decide.
  - rewrite lookup_app_l by (rewrite length_take; lia). by rewrite lookup_take_lt.
  - rewrite lookup_app_r by (rewrite length_take; lia). rewrite length_take.
    replace (k - e `min` length c)%nat with (k - e)%nat by lia. case_decide.
    + by rewrite lookup_app_l by lia.
    + rewrite lookup_app_r by lia. rewrite lookup_drop. f_equal. lia.
Qed.

Lemma lookup_cut (c : list T) (e n k : nat) :
  (e ≤ length c)%nat →
  (take e c ++ drop (e + n) c) !! k =
    if decide (k < e)%nat then c !! k else c !! (k + n)%nat.
Proof.
  intros He. case_decide.
  - rewrite lookup_app_l by (rewrite length_take; lia). by rewrite lookup_take_lt.
  - rewrite lookup_app_r by (rewrite length_take; lia). rewrite length_take, lookup_drop.
    f_equal. lia.
Qed.

(** X1. [Remove( i )] at a valid index of a well-formed array completes;
    the size goes down by one, the elements before [i] stay, those after it
    move down one index, so the sequence is the old one with index [i]
    deleted and the order of the rest is kept; the invariant holds again. *)
Theorem Remove_keeps_order a elem :
  wf a → 0 ≤ elem < Count a →
  ∃ a' l,
    run (Remove elem) a = Done tt (World a' l) ∧
    Count a' = Count a - 1 ∧
    NumAllocated a' = NumAllocated a ∧
    (∀ j, 0 ≤ j < elem → Element a' j = Element a j) ∧
    (∀ j, elem ≤ j < Count a - 1 → Element a' j = Element a (j + 1)) ∧
    contents a' = delete (Z.to_nat elem) (contents a) ∧
    wf a'.
Proof.
  intros Hwf He.
  destruct (Remove_correct a elem Hwf He) as (a' & l & Hrun & Hc & Hlo & Hhi & Hcont & Hwf').
  exists a', l. split_and!; try done.
  destruct a as [m sz]. unfold run in Hrun. rewrite Remove_run in Hrun by (unfold Count in He; simpl in *; lia).
  injection Hrun as <- _. unfold NumAllocated. simpl.
  rewrite (proj2 (proj2 (shape_shifted_left _ _ _ _))).
  apply shape_update_at.
Qed.

(** X2. [RemoveMultiple( i, num )] with [0 ≤ i], [0 ≤ num] and
    [i + num ≤ size] on a well-formed array completes; the size goes down by
    [num] and the sequence is the old one without the indices
    [i .. i + num), in the same order; capacity and invariant are kept. *)
Theorem RemoveMultiple_correct a elem num :
  wf a → 0 ≤ elem → 0 ≤ num → elem + num ≤ Count a →
  ∃ a' l,
    run (RemoveMultiple elem num) a = Done tt (World a' l) ∧
    Count a' = Count a - num ∧
    NumAllocated a' = NumAllocated a ∧
    contents a' =
      take (Z.to_nat elem) (contents a) ++ drop (Z.to_nat elem + Z.to_nat num) (contents a) ∧
    wf a'.
Proof.
  destruct a as [m sz]. unfold Count, run. simpl. intros Hwf He Hn Hs.
  pose proof Hwf as [Hsz Hlive]. unfold NumAllocated in *. simpl in *.
  rewrite RemoveMultiple_run by done.
  pose proof (shape_destructed m (elem + num) num) as (_ & _ & Hc1).
  pose proof (shape_shifted_left (destructed m (elem + num) num) sz elem num) as (_ & _ & Hc2).
  rewrite Hc1 in Hc2.
  pose proof (wf_RemoveMultiple m sz elem num Hwf He Hn Hs) as Hwf'.
  eexists _, _. split; [done|]. cbn [arr m_Memory m_Size]. split_and!; [done|done| |done].
  pose proof (contents_length (Array m sz) ltac:(done)) as Hlen. simpl in Hlen.
  apply contents_is.
  - apply Hwf'.
  - cbn [m_Size]. rewrite length_app, length_take, length_drop. lia.
  - cbn [m_Size]. intros k Hk. rewrite lookup_cut by lia. unfold Element. cbn [m_Memory].
    rewrite get_shifted_left by lia.
    case_decide.
    + rewrite (contents_lookup (Array m sz)) by (simpl; unfold NumAllocated; simpl; lia).
      destruct debug; simpl; repeat case_bool_decide; simpl; try lia;
        rewrite get_destructed by lia; repeat case_bool_decide; try lia; try done;
        unfold Element; simpl; same_index.
    + replace (Z.to_nat k + Z.to_nat num)%nat with (Z.to_nat (k + num)) by lia.
      rewrite (contents_lookup (Array m sz)) by (simpl; unfold NumAllocated; simpl; lia).
      destruct debug; simpl; repeat case_bool_decide; simpl; try lia;
        rewrite get_destructed by lia; repeat case_bool_decide; try lia; try done;
        unfold Element; simpl; same_index.
Qed.

Lemma src_at_lookup (p : list T) k v : 0 ≤ k → p !! Z.to_nat k = Some v → src_at p k = v.
Proof. unfold src_at. by intros _ ->. Qed.

Lemma filling_lookup num p k :
  0 ≤ k < num → length (filling num p) = Z.to_nat num →
  filling num p !! Z.to_nat k =
    Some (match p with Some p => src_at p k | None => T_default end).
Proof.
  intros Hk Hlen. destruct p as [p|]; simpl in *.
  - destruct (lookup_lt_is_Some_2 p (Z.to_nat k)) as [v Hv]; [lia|].
    rewrite Hv. f_equal. symmetry. apply src_at_lookup; [lia|done].
  - apply lookup_replicate. split; [done|lia].
Qed.

Lemma contents_inserted m sz elem num p m1 :
  wf (Array m sz) → grown m sz num = Some m1 → 0 ≤ elem ≤ sz → 0 < num →
  length (filling num p) = Z.to_nat num →
  contents (Array (inserted m1 sz elem num p) (sz + num)) =
    take (Z.to_nat elem) (contents (Array m sz)) ++ filling num p ++
    drop (Z.to_nat elem) (contents (Array m sz)).
Proof.
  intros Hwf Hg He Hn Hfill. pose proof Hwf as [Hsz _].
  pose proof (wf_inserted m sz elem num p m1 Hwf Hg He Hn) as Hwf'.
  destruct (grown_Some _ _ _ _ Hg) as (_ & _ & Hcap & Hfit & Hget).
  pose proof (contents_length (Array m sz) ltac:(done)) as Hlen.
  unfold NumAllocated in *. simpl in *.
  apply contents_is.
  - apply Hwf'.
  - cbn [m_Size]. rewrite !length_app, length_take, length_drop, Hfill. lia.
  - cbn [m_Size]. intros k Hk. rewrite lookup_splice by lia. rewrite Hfill.
    unfold Element. cbn [m_Memory]. rewrite get_inserted by lia. rewrite !Hget.
    repeat (case_decide || case_bool_decide); try lia; simpl.
    + by rewrite (contents_lookup (Array m sz)) by (simpl; unfold NumAllocated; simpl; lia).
    + replace (Z.to_nat k - Z.to_nat elem)%nat with (Z.to_nat (k - elem)) by lia.
      by rewrite filling_lookup by lia.
    + replace (Z.to_nat k - Z.to_nat num)%nat with (Z.to_nat (k - num)) by lia.
      by rewrite (contents_lookup (Array m sz)) by (simpl; unfold NumAllocated; simpl; lia).
Qed.

Lemma InsertMultipleBefore_full a elem num p l0 :
  wf a → 0 ≤ elem ≤ Count a → 0 ≤ num → can_hold a (Count a + num) →
  length (filling num p) = Z.to_nat num →
  ∃ a' l,
    InsertMultipleBefore elem num p (World a l0) = Done elem (World a' l) ∧
    Count a' = Count a + num ∧
    contents a' =
      take (Z.to_nat elem) (contents a) ++ filling num p ++ drop (Z.to_nat elem) (contents a) ∧
    wf a' ∧
    m_Policy (m_Memory a') = m_Policy (m_Memory a) ∧
    NumAllocated a ≤ NumAllocated a' ∧
    grow_events l =
      (grow_events l0 + if decide ((Count a + num > NumAllocated a)%Z) then 1 else 0)%nat.
Proof.
  destruct a as [m sz]. unfold Count. simpl. intros Hwf He Hn Hhold Hfill.
  rewrite InsertMultipleBefore_run by done. case_decide as Hz.
  - exists (Array m sz), l0. subst num. simpl in Hfill. apply nil_length_inv in Hfill.
    pose proof Hwf as [Hsz _]. unfold NumAllocated in *. simpl in *.
    split_and!; [done|lia| |done|done|lia|case_decide; lia].
    rewrite Hfill. simpl. by rewrite take_drop.
  - destruct (grown_can_hold m sz num Hhold) as [m1 Hg]. rewrite Hg.
    destruct (grown_Some _ _ _ _ Hg) as (Hp & _ & Hcap & _ & _).
    pose proof (shape_inserted m1 sz elem num p) as (Hp' & _ & Hc').
    eexists _, _. split; [done|]. cbn [m_Size m_Memory]. split_and!.
    + done.
    + apply contents_inserted; (done || lia).
    + apply (wf_inserted m); (done || lia).
    + by rewrite Hp'.
    + unfold NumAllocated. simpl. lia.
    + rewrite !grow_events_app, grow_events_grow_log, grow_events_insert_log.
      unfold NumAllocated. simpl. case_decide; lia.
Qed.

(** X3. [InsertMultipleBefore( i, num, pToInsert )] with [0 ≤ i ≤ size],
    [0 ≤ num], room in the policy and, when [pToInsert] is given, exactly
    [num] source elements, completes and returns [i]; the sequence is the
    old one with the source elements (or [num] default-constructed ones)
    inserted at [i], the size has grown by [num], the invariant holds, and
    the policy's [Grow] was called once if the capacity did not suffice and
    not at all otherwise.  With [num = 0] nothing happens. *)
Theorem InsertMultipleBefore_correct a elem num p :
  wf a → 0 ≤ elem ≤ Count a → 0 ≤ num → can_hold a (Count a + num) →
  length (filling num p) = Z.to_nat num →
  ∃ a' l,
    run (InsertMultipleBefore elem num p) a = Done elem (World a' l) ∧
    Count a' = Count a + num ∧
    contents a' =
      take (Z.to_nat elem) (contents a) ++ filling num p ++ drop (Z.to_nat elem) (contents a) ∧
    wf a' ∧
    grow_events l = (if decide (Count a + num > NumAllocated a) then 1%nat else 0%nat) ∧
    (num = 0 → a' = a ∧ l = []).
Proof.
  intros Hwf He Hn Hhold Hfill.
  destruct (InsertMultipleBefore_full a elem num p [] Hwf He Hn Hhold Hfill)
    as (a' & l & Hrun & Hc & Hcont & Hwf' & _ & _ & Hg).
  exists a', l. split_and!; try done.
  intros ->. unfold run in Hrun. destruct a as [m sz].
  rewrite InsertMultipleBefore_run in Hrun by done. simpl in Hrun.
  by injection Hrun as <- <-.
Qed.

Lemma contents_assigned m base n v (l : list T) :
  wf (Array m (base + n)) → 0 ≤ base → 0 ≤ n →
  length l = Z.to_nat n →
  (∀ k, 0 ≤ k < n → l !! Z.to_nat k = Some (v k)) →
  contents (Array (assigned m base n v) (base + n)) =
    take (Z.to_nat base) (contents (Array m (base + n))) ++ l.
Proof.
  intros Hwf Hb Hn Hlen Hl. pose proof Hwf as [Hsz _].
  pose proof (wf_assigned m (base + n) base n v Hwf) as Hwf'.
  pose proof (contents_length (Array m (base + n)) ltac:(done)) as Hclen.
  unfold NumAllocated in *. simpl in *.
  apply contents_is.
  - apply Hwf'.
  - cbn [m_Size]. rewrite length_app, length_take. lia.
  - cbn [m_Size]. intros k Hk. unfold Element. cbn [m_Memory].
    rewrite get_assigned by lia. case_bool_decide.
    + rewrite lookup_app_r by (rewrite length_take; lia). rewrite length_take.
      replace (Z.to_nat k - Z.to_nat base `min` length (contents (Array m (base + n))))%nat
        with (Z.to_nat (k - base)) by lia.
      by rewrite Hl by lia.
    + rewrite lookup_app_l by (rewrite length_take; lia).
      rewrite lookup_take_lt by lia.
      by rewrite (contents_lookup (Array m (base + n))) by (simpl; unfold NumAllocated; simpl; lia).
Qed.

Lemma AddMultipleToTail_full a num p l0 :
  wf a → 0 ≤ num → can_hold a (Count a + num) →
  length (filling num p) = Z.to_nat num →
  ∃ a' l,
    AddMultipleToTail num p (World a l0) = Done (Count a) (World a' l) ∧
    Count a' = Count a + num ∧
    contents a' = contents a ++ filling num p ∧
    wf a'.
Proof.
  intros Hwf Hn Hhold Hfill. pose proof Hwf as [Hsz _].
  destruct (InsertMultipleBefore_full a (Count a) num p l0 Hwf ltac:(unfold Count; lia) Hn Hhold Hfill)
    as (a' & l & Hrun & Hc & Hcont & Hwf' & _).
  exists a', l. split_and!; try done.
  pose proof (contents_length a Hsz) as Hlen.
  rewrite Hcont. unfold Count.
  rewrite take_ge, drop_ge by lia. by rewrite app_nil_r.
Qed.

(** X4. [AddToTail( src )] on a well-formed array whose policy can take one
    more element completes and returns the old element count; the sequence
    is the old one followed by [src]. *)
Theorem AddToTail_src_correct a src :
  wf a → can_hold a (Count a + 1) →
  ∃ a' l,
    run (AddToTail_src src) a = Done (Count a) (World a' l) ∧
    Count a' = Count a + 1 ∧
    contents a' = contents a ++ [src] ∧
    wf a'.
Proof.
  destruct a as [m sz]. unfold Count, run. simpl. intros Hwf Hhold. pose proof Hwf as [Hsz _].
  simpl in Hsz. unfold AddToTail_src. rewrite run_bind. unfold get. cbn [arr m_Size].
  rewrite InsertBefore_src_run by lia.
  destruct (grown_can_hold m sz 1 Hhold) as [m1 Hg]. rewrite Hg.
  destruct (grown_Some _ _ _ _ Hg) as (_ & _ & Hcap & Hfit & Hget).
  pose proof (wf_insert_one m sz sz src m1 Hwf Hg ltac:(lia)) as Hwf'.
  pose proof (contents_length (Array m sz) Hsz) as Hlen.
  unfold NumAllocated in *. simpl in *.
  eexists _, _. split; [done|]. split_and!; [done| |done].
  apply contents_is.
  - apply Hwf'.
  - cbn [m_Size]. rewrite length_app. simpl. lia.
  - cbn [m_Size]. intros k Hk. unfold Element. cbn [m_Memory].
    destruct (decide (k = sz)) as [->|Hne].
    + rewrite mem_get_set_eq by (rewrite (proj2 (proj2 (shape_shifted_right _ _ _ _))); lia).
      rewrite lookup_app_r by lia. by replace (Z.to_nat sz - _)%nat with 0%nat by lia.
    + rewrite mem_get_set_ne by done. rewrite get_shifted_right by lia. rewrite !Hget.
      rewrite lookup_app_l by lia.
      rewrite (contents_lookup (Array m sz)) by (simpl; unfold NumAllocated; simpl; lia).
      repeat case_bool_decide; try lia; done.
Qed.

(** X5. [RemoveAll()] on a well-formed array destructs every element, from
    the last index down to the first, and leaves an empty array with the
    capacity it had: nothing is deallocated. *)
Theorem RemoveAll_correct a :
  wf a →
  ∃ a',
    run RemoveAll a =
      Done tt (World a' (events_down EvDestruct (Z.to_nat (Count a)) (Count a))) ∧
    Count a' = 0 ∧
    contents a' = [] ∧
    NumAllocated a' = NumAllocated a ∧
    wf a'.
Proof.
  destruct a as [m sz]. unfold run, Count. simpl. intros Hwf.
  rewrite RemoveAll_run. eexists. split; [done|]. split_and!; [done|done| |].
  - unfold NumAllocated. simpl. apply shape_destructed.
  - by apply wf_destructed_all.
Qed.

Lemma SetCount_full a count :
  wf a → 0 ≤ count → can_hold a count →
  ∃ a' l,
    run (SetCount count) a = Done tt (World a' l) ∧
    run (SetSize count) a = Done tt (World a' l) ∧
    Count a' = count ∧
    contents a' = replicate (Z.to_nat count) T_default ∧
    wf a'.
Proof.
  destruct a as [m sz]. unfold run, SetSize. intros Hwf Hc Hhold.
  destruct (SetCount_run m sz [] count Hc) as [l' Hrun]. rewrite Hrun.
  pose proof (wf_destructed_all m sz Hwf) as Hw0.
  pose proof (shape_destructed m sz sz) as (Hp0 & _ & Hc0).
  case_decide as Hz.
  - subst count. eexists _, _. split_and!; [done|done|done|done|done].
  - destruct (grown_can_hold (destructed m sz sz) 0 count) as [m1 Hg].
    { unfold can_hold, NumAllocated in *. simpl in *. rewrite Hp0, Hc0.
      destruct (m_Policy m); [done| |done]. by rewrite Z.add_0_l. }
    rewrite Hg. eexists _, _. split_and!; [done|done|done| |].
    + pose proof (contents_inserted (destructed m sz sz) 0 0 count None m1 Hw0 Hg
                    ltac:(lia) ltac:(lia)) as Hcont.
      rewrite Z.add_0_l in Hcont. rewrite Hcont.
      * simpl. by rewrite app_nil_r.
      * simpl. by rewrite length_replicate.
    + apply (wf_SetCount m sz); (done || lia).
Qed.

(** X6. [SetCount( n )] (and [SetSize( n )], which calls it) with [n ≥ 0]
    on a well-formed array whose policy can hold [n] elements discards the
    old contents and leaves exactly [n] default-constructed elements. *)
Theorem SetCount_correct a count :
  wf a → 0 ≤ count → can_hold a count →
  ∃ a' l,
    run (SetCount count) a = Done tt (World a' l) ∧
    run (SetSize count) a = Done tt (World a' l) ∧
    Count a' = count ∧
    contents a' = replicate (Z.to_nat count) T_default ∧
    wf a'.
Proof. intros Hwf Hc Hhold. by apply SetCount_full. Qed.

(** X7. [CopyArray( pArray, n )] with [0 ≤ n], at least [n] source elements
    and room in the policy leaves exactly the first [n] source elements, in
    order, whatever the array held before. *)
Theorem CopyArray_correct a (pArray : list T) size :
  wf a → 0 ≤ size → (Z.to_nat size ≤ length pArray)%nat → can_hold a size →
  ∃ a' l,
    run (CopyArray pArray size) a = Done tt (World a' l) ∧
    Count a' = size ∧
    contents a' = take (Z.to_nat size) pArray ∧
    wf a'.
Proof.
  intros Hwf Hs Hp Hhold.
  destruct (SetCount_full a size Hwf Hs Hhold) as (a1 & l1 & _ & Hrun & Hc & Hcont & Hwf1).
  unfold run, CopyArray in *. rewrite run_bind, Hrun.
  destruct a1 as [m1 s1]. unfold Count in Hc. simpl in Hc. subst s1.
  rewrite (for_up_run _ _ _ (Assign_step 0 (src_at pArray))).
  fold (assigned m1 0 size (src_at pArray)).
  eexists _, _. split; [done|]. split_and!; [done| |by apply wf_assigned].
  pose proof (contents_assigned m1 0 size (src_at pArray) (take (Z.to_nat size) pArray)) as Hca.
  rewrite Z.add_0_l in Hca. rewrite Hca; [done|done|lia|done| |].
  - rewrite length_take. lia.
  - intros k Hk. rewrite lookup_take_lt by lia.
    destruct (lookup_lt_is_Some_2 pArray (Z.to_nat k)) as [v Hv]; [lia|].
    rewrite Hv. f_equal. symmetry. apply src_at_lookup; [lia|done].
Qed.

(** X8. [AddVectorToTail( src )] for well-formed arrays, the policy having
    room for both, completes and returns the old element count; the
    sequence is the old one followed by that of [src]. *)
Theorem AddVectorToTail_correct a src :
  wf a → wf src → can_hold a (Count a + Count src) →
  ∃ a' l,
    run (AddVectorToTail src) a = Done (Count a) (World a' l) ∧
    Count a' = Count a + Count src ∧
    contents a' = contents a ++ contents src ∧
    wf a'.
Proof.
  intros Hwf Hwsrc Hhold. pose proof Hwsrc as [Hss _]. pose proof Hwf as [Hsa _].
  destruct (AddMultipleToTail_full a (Count src) None [] Hwf ltac:(unfold Count; lia) Hhold)
    as (a1 & l1 & Hrun & Hc & Hcont & Hwf1).
  { simpl. by rewrite length_replicate. }
  unfold run, AddVectorToTail. rewrite run_bind. unfold get. cbn [arr].
  rewrite run_bind, Hrun. rewrite run_bind.
  destruct a1 as [m1 s1]. unfold Count in Hc. simpl in Hc. subst s1.
  rewrite (for_up_run _ _ _ (Assign_step (Count a) (Element src))).
  fold (assigned m1 (Count a) (Count src) (Element src)).
  eexists _, _. split; [done|]. unfold Count in *. split_and!; [done| |by apply wf_assigned].
  rewrite (contents_assigned m1 (m_Size a) (m_Size src) (Element src) (contents src));
    [|done|lia|lia|by apply contents_length|].
  - rewrite Hcont. rewrite take_app_length'; [done|]. rewrite contents_length by done. lia.
  - intros k Hk. apply contents_lookup; lia.
Qed.

(** X9. [EnsureCount( n )] never shrinks: with at least [n] elements it
    does nothing; with fewer (and room in the policy) it appends
    default-constructed elements up to a count of exactly [n], keeping the
    elements that were there. *)
Theorem EnsureCount_correct a num :
  wf a → (Count a < num → can_hold a num) →
  ∃ a' l,
    run (EnsureCount num) a = Done tt (World a' l) ∧
    Count a' = Z.max (Count a) num ∧
    contents a' = contents a ++ replicate (Z.to_nat (num - Count a)) T_default ∧
    wf a' ∧
    (num ≤ Count a → a' = a ∧ l = []).
Proof.
  intros Hwf Hhold. unfold run, EnsureCount. rewrite run_bind. unfold get. cbn [arr].
  case_decide as Hlt.
  - destruct (AddMultipleToTail_full a (num - Count a) None [] Hwf ltac:(lia))
      as (a1 & l1 & Hrun & Hc & Hcont & Hwf1).
    { replace (Count a + (num - Count a)) with num by lia. by apply Hhold. }
    { simpl. by rewrite length_replicate. }
    rewrite run_bind, Hrun. eexists _, _. split; [done|].
    split_and!; [lia|done|done|lia].
  - exists a, []. split; [by destruct a|]. split_and!; [lia| |done|done].
    replace (Z.to_nat (num - Count a)) with 0%nat by lia. simpl. by rewrite app_nil_r.
Qed.

(** X10. [Find( src )] returns the first index whose element equals [src]
    under [operator==], or [InvalidIndex()] (-1) when no element does, and
    [HasElement] says which of the two it is. *)
Theorem Find_first_match a src :
  (Find a src = InvalidIndex ∧ HasElement a src = false ∧
   ∀ k, 0 ≤ k < Count a → T_eq (Element a k) src = false) ∨
  (0 ≤ Find a src < Count a ∧ HasElement a src = true ∧
   T_eq (Element a (Find a src)) src = true ∧
   ∀ k, 0 ≤ k < Find a src → T_eq (Element a k) src = false).
Proof.
  unfold HasElement, InvalidIndex.
  destruct (Find_from_spec a src (Z.to_nat (Count a)) 0) as [[Hnone Hall]|(Hr & Hhit & Hbefore)];
    fold (Find a src) in *.
  - left. rewrite Hnone. split_and!; [done|done|]. intros k Hk. apply Hall. lia.
  - right. split_and!; [lia|lia|by apply bool_decide_eq_true; lia|done|done].
Qed.

(** X11. In a debug build an insertion into an array of non-negative size
    whose index is outside [0 .. size] is stopped by its assertion before anything happens: the array and the
    log are as they were, for [InsertBefore] with and without a source
    element and for [InsertMultipleBefore] with a non-zero count. *)
Theorem insertion_index_asserted a l elem src num p :
  debug = true → 0 ≤ Count a → ¬ (0 ≤ elem ≤ Count a) →
  InsertBefore elem (World a l) = Fatal (World a l) ∧
  InsertBefore_src elem src (World a l) = Fatal (World a l) ∧
  (num ≠ 0 → InsertMultipleBefore elem num p (World a l) = Fatal (World a l)).
Proof.
  intros Hd Hpos He. destruct a as [m sz]. unfold Count in He, Hpos. simpl in He, Hpos.
  assert (Hstop : ∀ A (k : M A),
            (assert (bool_decide (elem = Count (Array m sz)) || IsValidIndex (Array m sz) elem) >> k)
              (World (Array m sz) l) = Fatal (World (Array m sz) l)).
  { intros A k. rewrite run_bind. unfold assert.
    replace (bool_decide (elem = Count (Array m sz)) || IsValidIndex (Array m sz) elem)
      with false; [rewrite Hd; reflexivity|].
    symmetry. apply orb_false_iff. split.
    - apply bool_decide_eq_false. unfold Count. simpl. lia.
    - apply not_true_is_false. rewrite IsValidIndex_true. simpl. lia. }
  split_and!.
  - unfold InsertBefore. rewrite run_bind. apply Hstop.
  - unfold InsertBefore_src. rewrite run_bind. apply Hstop.
  - intros Hn. unfold InsertMultipleBefore.
    destruct (decide (num = 0)) as [Hz|Hz]; [by destruct (Hn Hz)|].
    rewrite run_bind. apply Hstop.
Qed.

(** X12. In a debug build [FastRemove] at an invalid index, and [Head] and
    [Tail] on an array without elements, are stopped by their assertions
    with the array and the log as they were. *)
Theorem access_asserted a l elem :
  debug = true →
  (¬ (0 ≤ elem < Count a) → FastRemove elem (World a l) = Fatal (World a l)) ∧
  (Count a ≤ 0 → Head (World a l) = Fatal (World a l) ∧ Tail (World a l) = Fatal (World a l)).
Proof.
  intros Hd. destruct a as [m sz]. unfold Count. simpl. split.
  - intros He. unfold FastRemove. exec. unfold assert.
    replace (IsValidIndex (Array m sz) elem) with false; [rewrite Hd; reflexivity|].
    symmetry. apply not_true_is_false. rewrite IsValidIndex_true. simpl. lia.
  - intros Hs. unfold Head, Tail. exec. unfold assert.
    replace (bool_decide (sz > 0)) with false; [rewrite Hd; split; reflexivity|].
    symmetry. apply bool_decide_eq_false. lia.
Qed.

(** X13. A full fixed-capacity array refuses [AddToTail]: the call stops at
    the policy's [Grow( 1 )], which is asked for before the size is raised
    or anything is shifted, so the array is exactly as it was. *)
Theorem AddToTail_refused_when_full a b src :
  wf a → m_Policy (m_Memory a) = Fixed b → b ≤ NumAllocated a → Count a = NumAllocated a →
  run (AddToTail_src src) a = Fatal (World a [EvGrow 1]).
Proof.
  destruct a as [m sz]. unfold run, Count, NumAllocated. simpl. intros [Hsz _] Hp Hb Hfull.
  simpl in Hsz. unfold AddToTail_src. rewrite run_bind. unfold get. cbn [arr m_Size].
  rewrite InsertBefore_src_run by lia.
  unfold grown, grow_log, MemGrow. rewrite Hp.
  case_decide; [|lia]. case_decide; [lia|].
  by replace (sz + 1 - MemNumAllocated m) with 1 by lia.
Qed.

(** X14. [Sort] on storage with a base address.  With at most one element
    it does nothing, whatever the storage.  With more it hands the element
    range to [qsort] once, and, [qsort] returning as many elements as it
    was given, the sequence afterwards is what [qsort] made of the old one;
    size, capacity and invariant are kept. *)
Theorem Sort_by_qsort a pfnCompare :
  wf a → Base a = true →
  length (qsort pfnCompare (contents a)) = length (contents a) →
  (Count a ≤ 1 → run (Sort pfnCompare) a = Done tt (World a [])) ∧
  (1 < Count a →
   ∃ a',
     run (Sort pfnCompare) a = Done tt (World a' [EvQsort (Count a)]) ∧
     Count a' = Count a ∧
     NumAllocated a' = NumAllocated a ∧
     contents a' = qsort pfnCompare (contents a) ∧
     wf a').
Proof.
  destruct a as [m sz]. unfold run, Count, Base. simpl. intros Hwf Hb Hlen.
  pose proof Hwf as [Hsz _]. unfold NumAllocated in Hsz. simpl in Hsz.
  pose proof (contents_length (Array m sz) ltac:(done)) as Hclen. simpl in Hclen.
  split; intros Hs; unfold Sort; rewrite run_bind; unfold get; cbn [arr]; unfold Count, Base;
    cbn [m_Size m_Memory]; (case_decide; [try done; lia|try lia]).
  rewrite Hb. exec.
  assert (Hwf' : wf (Array (mem_store_bits m (qsort pfnCompare (contents (Array m sz)))) sz)).
  { apply (wf_same_live m); [apply shape_store_bits| |done].
    intros j Hj. rewrite mem_get_store_bits by done. by destruct (_ !! _). }
  eexists. split; [done|]. split_and!; [done|apply cap_store_bits| |done].
  apply contents_is; [apply Hwf'|cbn [m_Size]; lia|].
  cbn [m_Size]. intros k Hk. unfold Element. cbn [m_Memory].
  rewrite mem_get_store_bits by lia.
  destruct (lookup_lt_is_Some_2 (qsort pfnCompare (contents (Array m sz))) (Z.to_nat k))
    as [v Hv]; [lia|].
  by rewrite Hv.
Qed.

End Array.

Global Arguments CUtlArray T : clear implicits.

(** ** A concrete instance: arrays of [int] *)

(** [int] elements; [0xDDDDDDDD] read as a signed 32-bit value is the debug
    fill, and raw storage is taken to read as 0. *)
#[global] Instance int_elem : ElemType Z := {|
  T_default := 0;
  T_eq := Z.eqb;
  T_raw := 0;
  T_fill := -572662307
|}.

(** A comparator in the style [qsort] expects: negative, zero or positive. *)
Definition CompareInts (x y : Z) : Z :=
  if decide (x < y) then -1 else if decide (y < x) then 1 else 0.

(** An insertion sort standing in for the C library's [qsort]. *)
Fixpoint insert_sorted {A} (cmp : A → A → Z) (x : A) (l : list A) : list A :=
  match l with
  | [] => [x]
  | y :: l' => if decide (cmp x y ≤ 0) then x :: l else y :: insert_sorted cmp x l'
  end.

Definition insertion_sort {A} (cmp : A → A → Z) (l : list A) : list A :=
  foldr (insert_sorted cmp) [] l.

(** The array reached from an empty one (growth increment 0, no initial
    allocation) by appending the elements of [l] one [AddToTail] at a time. *)
Definition appended (p : policy) (l : list Z) : CUtlArray Z :=
  match exec_all false insertion_sort (OpAddToTail_src <$> l) (World (CUtlArray_new p 0 0) []) with
  | Done _ w => arr w
  | Fatal w => arr w
  end.

(** The array left by [RemoveAll()] on [a]: no elements, capacity kept. *)
Definition emptied (a : CUtlArray Z) : CUtlArray Z :=
  match run RemoveAll a with
  | Done _ w => arr w
  | Fatal w => arr w
  end.

(** ** The claims that need the concrete instance *)

(** C1. [Sort] on storage without a base address.  From the same elements
    [2, 3, 1] and the same comparator, the [qsort] path over contiguous
    storage leaves the ascending order [1, 2, 3] the comparator defines,
    while in an optimized build the exchange fallback over block-segmented
    storage leaves [3, 2, 1], the reverse of it; in a debug build the
    fallback is not reached at all, the [assert( 0 )] in front of it stops
    the call with the array untouched. *)
Theorem Sort_fallback_reverses :
  contents <$> final (run (Sort false insertion_sort CompareInts)
                          (appended Contiguous [2; 3; 1])) = Some [1; 2; 3] ∧
  contents <$> final (run (Sort false insertion_sort CompareInts)
                          (appended BlockSegmented [2; 3; 1])) = Some [3; 2; 1] ∧
  run (Sort true insertion_sort CompareInts) (appended BlockSegmented [2; 3; 1]) =
    Fatal (World (appended BlockSegmented [2; 3; 1]) []).
Proof. split_and!; by vm_compute. Qed.

(** C2. [FastRemove( i )] at a valid index of a well-formed array destructs
    the element at [i] and relocates one element, two element-sized steps
    whatever the size; the size goes down by one; when [i] was not the last
    index it now holds the former last element; every other remaining index
    holds what it held; the invariant is kept.  The order of the remaining
    elements is not preserved in general: there is an array on which the
    result differs from the sequence with index [i] deleted. *)
Theorem FastRemove_spec {T} `{ElemType T} (debug : bool) (a : CUtlArray T) (elem : Z) :
  wf a → IsValidIndex a elem = true →
  (∃ a' l,
     run (FastRemove debug elem) a = Done tt (World a' l) ∧
     l = [EvDestruct elem; EvMove elem (Count a - 1) 1] ∧
     cost l = 2 ∧
     Count a' = Count a - 1 ∧
     (elem ≠ Count a - 1 → Element a' elem = Element a (Count a - 1)) ∧
     (∀ j, 0 ≤ j < Count a - 1 → j ≠ elem → Element a' j = Element a j) ∧
     wf a') ∧
  (∃ (b b' : CUtlArray Z) (k : Z),
     wf b ∧ IsValidIndex b k = true ∧
     final (run (FastRemove debug k) b) = Some b' ∧
     contents b' ≠ delete (Z.to_nat k) (contents b)).
Proof.
  intros Hwf Hvalid. split; [by apply FastRemove_correct|].
  set (b := appended Contiguous [5; 9; 7; 3]).
  assert (Hb : wf b) by (apply wfb_wf; by vm_compute).
  destruct (FastRemove_correct debug b 0 Hb eq_refl)
    as (b' & l & Hrun & _ & _ & Hc & Hlast & _ & Hwb').
  exists b, b', 0. split_and!; [done|done|by rewrite Hrun|].
  intros Heq. specialize (Hlast ltac:(by vm_compute)). unfold Count in Hc.
  assert (Hlk : contents b' !! 0%nat = Some (Element b' 0)).
  { apply (contents_lookup b' 0); [rewrite Hc; by vm_compute|apply Hwb']. }
  rewrite Heq, Hlast in Hlk. vm_compute in Hlk. discriminate Hlk.
Qed.

Lemma FastRemove_scenario :
  wf (appended Contiguous [5; 9; 7; 3]) ∧
  IsValidIndex (appended Contiguous [5; 9; 7; 3]) 0 = true ∧
  ∃ a' l,
    run (FastRemove true 0) (appended Contiguous [5; 9; 7; 3]) = Done tt (World a' l) ∧
    cost l = 2 ∧ Count a' = 3 ∧ contents a' = [3; 9; 7].
Proof.
  assert (Hwf : wf (appended Contiguous [5; 9; 7; 3])) by (apply wfb_wf; by vm_compute).
  split_and!; [done|done|].
  destruct (FastRemove_spec true _ 0 Hwf eq_refl) as [(a' & l & Hrun & _ & Hcost & Hc & _) _].
  exists a', l. split_and!; [done|done|done|].
  vm_compute in Hrun. by injection Hrun as <- _.
Defined.

(** C4. Two removals outside their contract that a debug build lets
    through.  [RemoveMultiple( 2, -1 )] on [5, 7, 3] passes both assertions,
    performs no step and leaves the size at 4; [Remove( 0 )] on an emptied
    array meets no failing assertion and leaves the size at -1.  The sibling
    [FastRemove( 0 )] on the same emptied array is stopped by its assertion
    before anything happens. *)
Theorem removals_let_through :
  (∃ a', run (RemoveMultiple true 2 (-1)) (appended Contiguous [5; 7; 3]) =
           Done tt (World a' []) ∧ Count a' = 4) ∧
  (∃ a' l, run (Remove true 0) (emptied (appended Contiguous [5; 7; 3])) =
             Done tt (World a' l) ∧ Count a' = -1) ∧
  run (FastRemove true 0) (emptied (appended Contiguous [5; 7; 3])) =
    Fatal (World (emptied (appended Contiguous [5; 7; 3])) []).
Proof.
  split_and!.
  - eexists. split; [by vm_compute|done].
  - eexists _, _. split; [by vm_compute|done].
  - by vm_compute.
Qed.

(** ** The scenarios of the specification, as instances of the theorems *)

Lemma InsertBefore_src_scenario :
  wf (appended Contiguous [5; 7; 3]) ∧
  0 ≤ 1 ≤ m_Size (appended Contiguous [5; 7; 3]) ∧
  can_hold (appended Contiguous [5; 7; 3]) (m_Size (appended Contiguous [5; 7; 3]) + 1) ∧
  ∃ a' l,
    run (InsertBefore_src true 1 9) (appended Contiguous [5; 7; 3]) = Done 1 (World a' l) ∧
    contents a' = [5; 9; 7; 3] ∧
    Count a' = 4.
Proof.
  assert (Hwf : wf (appended Contiguous [5; 7; 3])) by (apply wfb_wf; by vm_compute).
  assert (Hr : 0 ≤ 1 ≤ m_Size (appended Contiguous [5; 7; 3])) by (by vm_compute).
  assert (Hh : can_hold (appended Contiguous [5; 7; 3])
                 (m_Size (appended Contiguous [5; 7; 3]) + 1)) by (by vm_compute).
  split_and!; [done..|].
  destruct (InsertBefore_src_correct true _ 1 9 Hwf Hr Hh)
    as (a' & l & Hrun & _ & Hc & _ & _ & _ & _ & Hcont & _).
  exists a', l. split_and!; [done|exact Hcont|exact Hc].
Defined.

Lemma FindAndRemove_scenario :
  wf (appended Contiguous [5; 7; 3]) ∧
  ∃ a' l,
    run (FindAndRemove true 7) (appended Contiguous [5; 7; 3]) = Done true (World a' l) ∧
    Count a' = 2 ∧ contents a' = [5; 3].
Proof.
  assert (Hwf : wf (appended Contiguous [5; 7; 3])) by (apply wfb_wf; by vm_compute).
  split; [done|].
  destruct (FindAndRemove_correct true _ 7 Hwf)
    as [(Hnone & _)|(a' & l & _ & _ & _ & Hrun & Hc & Hcont & _)].
  - vm_compute in Hnone. discriminate Hnone.
  - exists a', l. split_and!; [done|exact Hc|exact Hcont].
Defined.



Lemma EnsureCapacity_scenario :
  wf (appended Contiguous [5; 7; 3]) ∧
  can_hold (appended Contiguous [5; 7; 3]) 8 ∧
  ∃ a1,
    run (EnsureCapacity 8) (appended Contiguous [5; 7; 3]) = Done tt (World a1 []) ∧
    Count a1 = 3 ∧ contents a1 = [5; 7; 3] ∧ 8 ≤ NumAllocated a1 ∧
    ∃ w',
      exec_all true insertion_sort
        [OpAddToTail_src 1; OpInsertBefore_src 0 2; OpAddMultipleToTail 3 None]
        (World a1 []) = Done tt w' ∧
      grow_events (log w') = 0%nat ∧
      Count (arr w') = 8.
Proof.
  assert (Hwf : wf (appended Contiguous [5; 7; 3])) by (apply wfb_wf; by vm_compute).
  assert (Hh : can_hold (appended Contiguous [5; 7; 3]) 8) by (by vm_compute).
  split_and!; [done|done|].
  destruct (EnsureCapacity_correct true insertion_sort _ 8 Hwf Hh)
    as (a1 & Hrun & Hc & Hcont & Hcap & _ & Hseq).
  exists a1. split_and!; [done|exact Hc|exact Hcont|done|].
  vm_compute in Hrun. injection Hrun as <-.
  destruct (Hseq [OpAddToTail_src 1; OpInsertBefore_src 0 2; OpAddMultipleToTail 3 None])
    as (w' & Hall & Hg).
  - cbn [budget]. split; [done|]. split; [by vm_compute|]. split; [by vm_compute|].
    intros r w1 He. vm_compute in He. injection He as <- <-.
    split; [done|]. split; [by vm_compute|]. split; [by vm_compute|].
    intros r w2 He. vm_compute in He. injection He as <- <-.
    split; [done|]. split; [by vm_compute|]. split; [by vm_compute|]. done.
  - exists w'. split_and!; [done|done|].
    vm_compute in Hall. by injection Hall as <-.
Defined.

Lemma assign_from_scenario :
  wf (appended Contiguous [1; 2]) ∧
  wf (appended Contiguous [5; 7; 3]) ∧
  can_hold (appended Contiguous [1; 2]) (Count (appended Contiguous [5; 7; 3])) ∧
  ∃ a' l,
    run (assign_from true (appended Contiguous [5; 7; 3])) (appended Contiguous [1; 2]) =
      Done tt (World a' l) ∧
    Count a' = 3 ∧ contents a' = [5; 7; 3].
Proof.
  assert (Ha : wf (appended Contiguous [1; 2])) by (apply wfb_wf; by vm_compute).
  assert (Hb : wf (appended Contiguous [5; 7; 3])) by (apply wfb_wf; by vm_compute).
  assert (Hh : can_hold (appended Contiguous [1; 2]) (Count (appended Contiguous [5; 7; 3])))
    by (by vm_compute).
  split_and!; [done|done|done|].
  destruct (assign_from_correct true _ _ Ha Hb Hh) as (a' & l & Hrun & Hc & _ & Hcont & _).
  exists a', l. split_and!; [done|exact Hc|exact Hcont].
Defined.

Lemma FastRemove_last_scenario :
  0 < Count (appended Contiguous [5; 7; 3]) ∧
  ∃ a',
    final (run (FastRemove true 2) (appended Contiguous [5; 7; 3])) = Some a' ∧
    final (run (Remove true 2) (appended Contiguous [5; 7; 3])) = Some a' ∧
    Count a' = 2 ∧ contents a' = [5; 7].
Proof.
  assert (Hpos : 0 < Count (appended Contiguous [5; 7; 3])) by (by vm_compute).
  split; [done|].
  destruct (FastRemove_last_Remove true (appended Contiguous [5; 7; 3]) Hpos)
    as (a' & Hf & Hr & Hc & Hcont & _).
  exists a'. split_and!; [exact Hf|exact Hr|exact Hc|exact Hcont].
Defined.
